(** * regres: a shallow embedding of cmd/regres/main.go

    The regres tool checks out a window of revisions, builds each one,
    records artifact sizes, optionally captures a trace and extracts its
    statistics, optionally times an incremental build, and prints a table.

    This file embeds the Go source: the parser of [captureStats] (the regular
    expression [([a-zA-Z]+):\s+([0-9]+)], [FindAllStringSubmatch] and
    [strconv.Atoi]), the perturbation cycle [withTouchedGLES] over a file
    system, [trace], and the driver [run] with its deferred calls.  External
    processes (git, bazel, gapit) are an environment record [env] whose
    fields give each call's outcome. *)

From Stdlib Require Import ZArith Lia Ascii String List Bool.
From stdpp Require Import base gmap strings list pretty.
Import ListNotations.

Open Scope Z_scope.

(* ================================================================== *)
(** ** Go values *)

(** A Go [(T, error)] pair where only one side matters. *)
Inductive result (A : Type) : Type :=
| Ok (a : A)
| Err (e : string).
Arguments Ok {A} a.
Arguments Err {A} e.

(** [error] values: [None] is [nil]. *)
Definition error := option string.

(* ================================================================== *)
(** ** The stats parser: regexp [([a-zA-Z]+):\s+([0-9]+)] *)

Module Regexp.

Definition in_range (lo hi : nat) (c : ascii) : bool :=
  (lo <=? nat_of_ascii c)%nat && (nat_of_ascii c <=? hi)%nat.

(** [[a-zA-Z]] *)
Definition is_letter (c : ascii) : bool := in_range 97 122 c || in_range 65 90 c.

(** RE2's [\s] is [[\t\n\f\r ]]. *)
Definition is_space (c : ascii) : bool :=
  let n := nat_of_ascii c in
  (n =? 9)%nat || (n =? 10)%nat || (n =? 12)%nat || (n =? 13)%nat || (n =? 32)%nat.

(** [[0-9]] *)
Definition is_digit (c : ascii) : bool := in_range 48 57 c.

(** Longest prefix whose characters satisfy [p], and the rest. *)
Fixpoint span (p : ascii -> bool) (s : string) : string * string :=
  match s with
  | EmptyString => (EmptyString, EmptyString)
  | String c s' =>
      if p c then let (a, b) := span p s' in (String c a, b)
      else (EmptyString, s)
  end.

(** A match anchored at the start of [s]: the whole match, group 1, group 2
    and the text after it.  All three repetitions are greedy and each is
    followed by a character class disjoint from its own, so the
    leftmost-first (backtracking-preference) match takes each run in full:
    a shorter letter run is followed by a letter, not [:], and a shorter
    blank run by a blank, not a digit. *)
Definition match_at (s : string) : option (string * string * string * string) :=
  let (w, r1) := span is_letter s in
  if String.eqb w EmptyString then None else
  match r1 with
  | String c r2 =>
      if Ascii.eqb c ":"%char then
        let (sp, r3) := span is_space r2 in
        if String.eqb sp EmptyString then None else
        let (d, r4) := span is_digit r3 in
        if String.eqb d EmptyString then None else
        Some ((w ++ ":" ++ sp ++ d)%string, w, d, r4)
      else None
  | EmptyString => None
  end.

(** Successive non-overlapping leftmost matches: try at the current
    position, else move one character on; after a match continue from its
    end.  Each step consumes at least one character, so [length s] steps
    suffice ([find_all_fuel] below). *)
Fixpoint find_all (fuel : nat) (s : string) : list (list string) :=
  match fuel with
  | O => []
  | S fuel' =>
      match s with
      | EmptyString => []
      | String _ s' =>
          match match_at s with
          | Some (whole, w, d, rest) => [whole; w; d] :: find_all fuel' rest
          | None => find_all fuel' s'
          end
      end
  end.

(** [re.FindAllStringSubmatch(s, -1)] *)
Definition FindAllStringSubmatch (s : string) : list (list string) :=
  find_all (String.length s) s.

End Regexp.

(* ================================================================== *)
(** ** strconv.Atoi on a 64-bit platform *)

Module Strconv.

Fixpoint digits_val_aux (acc : Z) (s : string) : Z :=
  match s with
  | EmptyString => acc
  | String c s' => digits_val_aux (acc * 10 + (Z.of_nat (nat_of_ascii c) - 48)) s'
  end.

Fixpoint all_digits (s : string) : bool :=
  match s with
  | EmptyString => true
  | String c s' => Regexp.is_digit c && all_digits s'
  end.

(** [strconv.Atoi]: an optional sign, then one or more decimal digits; the
    value must fit in [int] (64 bits), otherwise a range error.  Accepted
    inputs and their values are Go's; an error is kept as its kind only:
    Go's [*NumError] also carries the input text and, for a range error, a
    clamped value, and reports a range error where an overflowing digit run
    is followed by a non-digit.  [captureStats] only passes digit runs and
    discards the error. *)
Definition Atoi (s : string) : result Z :=
  let '(neg, body) :=
    match s with
    | String c b =>
        if Ascii.eqb c "-"%char then (true, b)
        else if Ascii.eqb c "+"%char then (false, b)
        else (false, s)
    | EmptyString => (false, s)
    end in
  if String.eqb body EmptyString then Err "invalid syntax" else
  if negb (all_digits body) then Err "invalid syntax" else
  let n := digits_val_aux 0 body in
  if neg then (if n <=? 2 ^ 63 then Ok (- n) else Err "value out of range")
  else (if n <? 2 ^ 63 then Ok n else Err "value out of range").

End Strconv.

(* ================================================================== *)
(** ** captureStats *)

(** Outcome of [cmd.Call(ctx)]: its stdout or an error. *)
Inductive call_result :=
| CallOk (stdout : string)
| CallErr (e : string).

(** The three counters [(numFrames, numDraws, numCmds)]. *)
Definition counters : Type := Z * Z * Z.

(** One iteration of the loop over [FindAllStringSubmatch]. *)
Definition stats_step (acc : counters) (matches : list string) : counters :=
  let '(numFrames, numDraws, numCmds) := acc in
  if negb (Nat.eqb (List.length matches) 3) then acc else
  match Strconv.Atoi (nth 2 matches EmptyString) with
  | Err _ => acc
  | Ok n =>
      let w := nth 1 matches EmptyString in
      if String.eqb w "Frames" then (n, numDraws, numCmds)
      else if String.eqb w "Draws" then (numFrames, n, numCmds)
      else if String.eqb w "Commands" then (numFrames, numDraws, n)
      else acc
  end.

(** A match whose word is none of the three counter names of the [switch]. *)
Definition unrecognized (m : list string) : Prop :=
  nth 1 m EmptyString <> "Frames" /\ nth 1 m EmptyString <> "Draws" /\
  nth 1 m EmptyString <> "Commands".

(** [captureStats] once the stats command has run; the named result [err]
    is the one assigned by [stdout, err := cmd.Call(ctx)]: the [err] of
    the loop body is a fresh variable of the inner scope. *)
Definition captureStats (call : call_result) : counters * error :=
  match call with
  | CallErr _ => ((0, 0, 0), None)
  | CallOk stdout =>
      (fold_left stats_step (Regexp.FindAllStringSubmatch stdout) (0, 0, 0), None)
  end.

(* ================================================================== *)
(** ** Files *)

(** A file: its bytes and its permission mode. *)
Record file := mkFile { f_data : string; f_mode : Z }.

Definition nl : string := String (ascii_of_nat 10) EmptyString.

(** [filepath.Join]: empty elements are dropped, the rest joined by [/]
    (path cleaning is not modelled). *)
Definition join (parts : list string) : string :=
  String.concat "/" (List.filter (fun s => negb (String.eqb s EmptyString)) parts).

(** [os.FileMode.Perm] *)
Definition Perm (m : Z) : Z := Z.land m 511.

Section Files.

(** Whether the process may read or write a file of a given mode, and the
    process umask applied when a file is created. *)
Variable readable writable : Z -> bool.
Variable umask : Z.

(** [os.Stat]: the mode of an existing file. *)
Definition Stat (fs : gmap string file) (p : string) : result Z :=
  match fs !! p with
  | Some f => Ok (f_mode f)
  | None => Err "no such file or directory"
  end.

(** [ioutil.ReadFile] *)
Definition ReadFile (fs : gmap string file) (p : string) : result string :=
  match fs !! p with
  | Some f => if readable (f_mode f) then Ok (f_data f) else Err "permission denied"
  | None => Err "no such file or directory"
  end.

(** [ioutil.WriteFile(p, data, perm)]: opens with O_WRONLY|O_CREATE|O_TRUNC;
    [perm] (minus the umask) is used only when the file is created, an
    existing file keeps its mode. *)
Definition WriteFile (fs : gmap string file) (p : string) (data : string) (perm : Z)
  : gmap string file * error :=
  match fs !! p with
  | Some f =>
      if writable (f_mode f) then (<[p := mkFile data (f_mode f)]> fs, None)
      else (fs, Some "permission denied")
  | None => (<[p := mkFile data (Z.land perm (Z.lnot umask))]> fs, None)
  end.

(** [os.Remove] *)
Definition Remove (fs : gmap string file) (p : string) : gmap string file * error :=
  match fs !! p with
  | Some _ => (delete p fs, None)
  | None => (fs, Some "no such file or directory")
  end.

(* ================================================================== *)
(** ** withTouchedGLES *)

Definition glesAPIPath (root : string) : string :=
  join [root; "gapis"; "api"; "gles"; "gles.api"].

(** [withTouchedGLES(ctx, r, f)].  [rand k] is the [k]-th value of
    [r.Int()]; the new generator position is returned.  The callback [f]
    acts on the file system and yields a value of its own (what the Go
    closure stores through its captured variables) and an error.  The
    deferred restore runs after [f] returns, whatever [f] returned; the
    errors of both [WriteFile] calls are dropped, as in the source.  The
    second component is [None] when [f] was not called. *)
Definition withTouchedGLES {A : Type} (root : string) (rand : nat -> Z) (k : nat)
    (f : gmap string file -> gmap string file * A * error) (fs0 : gmap string file)
  : gmap string file * nat * option A * error :=
  let p := glesAPIPath root in
  match Stat fs0 p with
  | Err e => (fs0, k, None, Some e)
  | Ok mode =>
      match ReadFile fs0 p with
      | Err e => (fs0, k, None, Some e)
      | Ok glesAPI =>
          let modGlesAPI :=
            (glesAPI ++ nl ++ "cmd void fake_cmd_" ++ pretty (rand k) ++ "() {}" ++ nl)%string in
          let fs1 := fst (WriteFile fs0 p modGlesAPI (Perm mode)) in
          let '(fs2, a, err) := f fs1 in
          let fs3 := fst (WriteFile fs2 p glesAPI (Perm mode)) in
          (fs3, S k, Some a, err)
      end
  end.

End Files.

(* ================================================================== *)
(** ** The driver [run] *)

(** The command-line flags, plus [runtime.GOOS] and [os.TempDir()]. *)
Record config := mkConfig {
  root : string;
  verbose : bool;
  incBuild : bool;
  optimize : bool;
  pkg : string;
  output : string;
  atSHA : string;
  count : Z;
  goos : string;
  tempdir : string
}.

Definition set_root (c : config) (r : string) : config :=
  mkConfig r (verbose c) (incBuild c) (optimize c) (pkg c) (output c) (atSHA c)
    (count c) (goos c) (tempdir c).

(** A changelist as returned by [g.LogFrom]. *)
Record cl := mkCL { cl_SHA : string; cl_Subject : string }.

(** What the gapit trace command leaves behind: the trace file, or a failure
    with possibly a partial output file. *)
Inductive trace_outcome :=
| TraceOk (f : file)
| TraceFail (e : string) (partial : option file).

(** The outcomes of the external calls.  [env_build sha inc] is the bazel
    build at revision [sha], on the perturbed tree when [inc]; durations are
    in nanoseconds. *)
Record env := mkEnv {
  env_getwd : result string;
  env_git_new : error;
  env_status : result bool;                 (* g.Status, then s.Clean() *)
  env_branch : result string;               (* g.CurrentBranch *)
  env_log : result (list cl);               (* g.LogFrom(atSHA, count) *)
  env_checkout : string -> error;           (* g.Checkout(sha) *)
  env_checkout_branch : string -> error;    (* g.CheckoutBranch(branch) *)
  env_tree : string -> option file;         (* the watched file at a revision *)
  env_build : string -> bool -> result Z;
  env_stat : string -> string -> result Z;  (* os.Stat(path).Size() at a revision *)
  env_trace : string -> trace_outcome;
  env_stats : string -> call_result;
  env_rand : nat -> Z                       (* successive r.Int() values *)
}.

(** The active head of the working tree. *)
Inductive head :=
| OnBranch (b : string)
| Detached (sha : string).

(** Calls made to git that change the working tree. *)
Inductive git_call :=
| GCheckout (sha : string)
| GCheckoutBranch (b : string).

(** A cell of the printed table; [CDur] is a build time. *)
Inductive cell :=
| CStr (s : string)
| CInt (n : Z)
| CDur (d : Z).

(** What reaches standard output. *)
Inductive line :=
| LText (s : string)
| LHeader (cols : list string)
| LRow (cells : list cell).

Record world := mkWorld {
  w_head : head;
  w_files : gmap string file;
  w_rnd : nat;
  w_git : list git_call;
  w_tab : list line;        (* buffered in the tabwriter *)
  w_stdout : list line
}.

Definition set_head (w : world) (h : head) : world :=
  mkWorld h (w_files w) (w_rnd w) (w_git w) (w_tab w) (w_stdout w).
Definition set_files (w : world) (fs : gmap string file) : world :=
  mkWorld (w_head w) fs (w_rnd w) (w_git w) (w_tab w) (w_stdout w).
Definition set_rnd (w : world) (k : nat) : world :=
  mkWorld (w_head w) (w_files w) k (w_git w) (w_tab w) (w_stdout w).
Definition log_git (w : world) (c : git_call) : world :=
  mkWorld (w_head w) (w_files w) (w_rnd w) (w_git w ++ [c]) (w_tab w) (w_stdout w).
Definition print (w : world) (l : line) : world :=
  mkWorld (w_head w) (w_files w) (w_rnd w) (w_git w) (w_tab w) (w_stdout w ++ [l]).
Definition tab_print (w : world) (l : line) : world :=
  mkWorld (w_head w) (w_files w) (w_rnd w) (w_git w) (w_tab w ++ [l]) (w_stdout w).
Definition flush (w : world) : world :=
  mkWorld (w_head w) (w_files w) (w_rnd w) (w_git w) [] (w_stdout w ++ w_tab w).

(** The [stats] struct. *)
Record file_sizes := mkSizes {
  LibGAPII : Z;
  LibVkLayerVirtualSwapchain : Z;
  GAPIDAarch64APK : Z;
  GAPIDArmeabi64APK : Z;
  GAPIDX86APK : Z;
  GAPID : Z;
  GAPIR : Z;
  GAPIS : Z;
  GAPIT : Z
}.

Record stats := mkStats {
  SHA : string;
  BuildTime : Z;
  IncrementalBuildTime : Z;
  FileSizes : file_sizes;
  CaptureStats : counters    (* Frames, DrawCalls, Commands *)
}.

Definition zero_sizes : file_sizes := mkSizes 0 0 0 0 0 0 0 0 0.

(** [stats{SHA: sha}] *)
Definition new_stats (sha : string) : stats := mkStats sha 0 0 zero_sizes (0, 0, 0).

(** The nine [&r.FileSizes.X] targets. *)
Inductive size_field :=
| F_LibGAPII | F_LibVkLayerVirtualSwapchain | F_GAPIDAarch64APK
| F_GAPIDArmeabi64APK | F_GAPIDX86APK | F_GAPID | F_GAPIR | F_GAPIS | F_GAPIT.

(** [*f.size = v] *)
Definition set_size (f : size_field) (v : Z) (r : stats) : stats :=
  let s := FileSizes r in
  let s' :=
    match f with
    | F_LibGAPII => mkSizes v (LibVkLayerVirtualSwapchain s) (GAPIDAarch64APK s) (GAPIDArmeabi64APK s) (GAPIDX86APK s) (GAPID s) (GAPIR s) (GAPIS s) (GAPIT s)
    | F_LibVkLayerVirtualSwapchain => mkSizes (LibGAPII s) v (GAPIDAarch64APK s) (GAPIDArmeabi64APK s) (GAPIDX86APK s) (GAPID s) (GAPIR s) (GAPIS s) (GAPIT s)
    | F_GAPIDAarch64APK => mkSizes (LibGAPII s) (LibVkLayerVirtualSwapchain s) v (GAPIDArmeabi64APK s) (GAPIDX86APK s) (GAPID s) (GAPIR s) (GAPIS s) (GAPIT s)
    | F_GAPIDArmeabi64APK => mkSizes (LibGAPII s) (LibVkLayerVirtualSwapchain s) (GAPIDAarch64APK s) v (GAPIDX86APK s) (GAPID s) (GAPIR s) (GAPIS s) (GAPIT s)
    | F_GAPIDX86APK => mkSizes (LibGAPII s) (LibVkLayerVirtualSwapchain s) (GAPIDAarch64APK s) (GAPIDArmeabi64APK s) v (GAPID s) (GAPIR s) (GAPIS s) (GAPIT s)
    | F_GAPID => mkSizes (LibGAPII s) (LibVkLayerVirtualSwapchain s) (GAPIDAarch64APK s) (GAPIDArmeabi64APK s) (GAPIDX86APK s) v (GAPIR s) (GAPIS s) (GAPIT s)
    | F_GAPIR => mkSizes (LibGAPII s) (LibVkLayerVirtualSwapchain s) (GAPIDAarch64APK s) (GAPIDArmeabi64APK s) (GAPIDX86APK s) (GAPID s) v (GAPIS s) (GAPIT s)
    | F_GAPIS => mkSizes (LibGAPII s) (LibVkLayerVirtualSwapchain s) (GAPIDAarch64APK s) (GAPIDArmeabi64APK s) (GAPIDX86APK s) (GAPID s) (GAPIR s) v (GAPIT s)
    | F_GAPIT => mkSizes (LibGAPII s) (LibVkLayerVirtualSwapchain s) (GAPIDAarch64APK s) (GAPIDArmeabi64APK s) (GAPIDX86APK s) (GAPID s) (GAPIR s) (GAPIS s) v
    end in
  mkStats (SHA r) (BuildTime r) (IncrementalBuildTime r) s' (CaptureStats r).

Definition set_capture (c : counters) (r : stats) : stats :=
  mkStats (SHA r) (BuildTime r) (IncrementalBuildTime r) (FileSizes r) c.

Definition set_inc_time (d : Z) (r : stats) : stats :=
  mkStats (SHA r) (BuildTime r) d (FileSizes r) (CaptureStats r).

(** [dllExt] and [exeExt] *)
Definition dllExt (c : config) (n : string) : string :=
  if String.eqb (goos c) "windows" then (n ++ ".dll")%string
  else if String.eqb (goos c) "darwin" then (n ++ ".dylib")%string
  else (n ++ ".so")%string.

Definition exeExt (c : config) (n : string) : string :=
  if String.eqb (goos c) "windows" then (n ++ ".exe")%string else n.

(** The table of artifact paths and their fields. *)
Definition artifacts (c : config) : list (string * size_field) :=
  let pkgDir := join [root c; "bazel-bin"; "pkg"] in
  [ (join [pkgDir; "lib"; dllExt c "libgapii"], F_LibGAPII);
    (join [pkgDir; "lib"; dllExt c "libVkLayer_VirtualSwapchain"], F_LibVkLayerVirtualSwapchain);
    (join [pkgDir; "gapid-aarch64.apk"], F_GAPIDAarch64APK);
    (join [pkgDir; "gapid-armeabi.apk"], F_GAPIDArmeabi64APK);
    (join [pkgDir; "gapid-x86.apk"], F_GAPIDX86APK);
    (join [pkgDir; exeExt c "gapid"], F_GAPID);
    (join [pkgDir; exeExt c "gapir"], F_GAPIR);
    (join [pkgDir; exeExt c "gapis"], F_GAPIS);
    (join [pkgDir; exeExt c "gapit"], F_GAPIT) ].

(** The file-size loop: a failed stat is logged and the field left alone. *)
Definition gather_sizes (c : config) (e : env) (sha : string) (r : stats) : stats :=
  fold_left
    (fun r '(path, fld) =>
       match env_stat e sha path with
       | Err _ => r
       | Ok sz => set_size fld sz r
       end)
    (artifacts c) r.

(** [trace(ctx)]: on failure the output file is removed and the error
    returned. *)
Definition trace_file (c : config) : string := join [tempdir c; "gapid-regres.gfxtrace"].

Definition trace (c : config) (e : env) (sha : string) (fs : gmap string file)
  : gmap string file * result string :=
  let file := trace_file c in
  match env_trace e sha with
  | TraceOk f => (<[file := f]> fs, Ok file)
  | TraceFail err partial =>
      let fs1 := match partial with Some f => <[file := f]> fs | None => fs end in
      (fst (Remove fs1 file), Err err)
  end.

(** How one iteration of the loop ends: a record appended, or one of the
    four [continue] statements. *)
Inductive iter_end :=
| Appended (r : stats)
| SkipBuild
| SkipTrace
| SkipStats
| SkipInc.

(** An iteration either returns from [run] or goes on to the next one. *)
Inductive body_result :=
| BFatal (e : string)
| BNext (x : iter_end).

(** Calls registered with [defer] in [run]. *)
Inductive deferred :=
| DCheckoutBranch (b : string)
| DRemove (p : string)
| DFlush.

Definition dummy_cl : cl := mkCL "" "".

(** The table header and one row per record. *)
Definition header (c : config) : list string :=
  ["sha"] ++
  (if incBuild c then ["incremental_build_time"] else []) ++
  (if negb (String.eqb (pkg c) "") then ["commands"; "draws"; "frames"] else []) ++
  ["lib_gapii"; "lib_swapchain"; "aarch64.apk"; "armeabi64.apk"; "x86.apk";
   "gapid"; "gapir"; "gapis"; "gapit"].

Definition row (c : config) (r : stats) : list cell :=
  let '(frames, draws, cmds) := CaptureStats r in
  let s := FileSizes r in
  [CStr (SHA r)] ++
  (if incBuild c then [CDur (IncrementalBuildTime r)] else []) ++
  (if negb (String.eqb (pkg c) "") then [CInt cmds; CInt draws; CInt frames] else []) ++
  [CInt (LibGAPII s); CInt (LibVkLayerVirtualSwapchain s); CInt (GAPIDAarch64APK s);
   CInt (GAPIDArmeabi64APK s); CInt (GAPIDX86APK s); CInt (GAPID s); CInt (GAPIR s);
   CInt (GAPIS s); CInt (GAPIT s)].

Section Driver.

Variable readable writable : Z -> bool.
Variable umask : Z.
Variable c : config.
Variable e : env.

(** [g.Checkout(ctx, cl.SHA)]: on success the tree is at the revision. *)
Definition checkout (w : world) (sha : string) : world * error :=
  let w := log_git w (GCheckout sha) in
  match env_checkout e sha with
  | Some err => (w, Some err)
  | None =>
      let p := glesAPIPath (root c) in
      let fs := match env_tree e sha with
                | Some f => <[p := f]> (w_files w)
                | None => delete p (w_files w)
                end in
      (set_files (set_head w (Detached sha)) fs, None)
  end.

(** The [if *pkg != ""] block. *)
Definition capture_stage (sha : string) (w : world) (ds : list deferred) (r : stats)
  : world * list deferred * (iter_end + stats) :=
  if String.eqb (pkg c) "" then (w, ds, inr r) else
  let '(fs, tr) := trace c e sha (w_files w) in
  let w := set_files w fs in
  match tr with
  | Err _ => (w, ds, inl SkipTrace)
  | Ok file =>
      let ds := DRemove file :: ds in
      let '(cnt, err) := captureStats (env_stats e sha) in
      match err with
      | Some _ => (w, ds, inl SkipStats)
      | None => (w, ds, inr (set_capture cnt r))
      end
  end.

(** The closure passed to [withTouchedGLES]: it builds and keeps the
    duration when the build succeeds, and always returns [nil]. *)
Definition inc_callback (sha : string) (fs : gmap string file)
  : gmap string file * option Z * error :=
  (fs, match env_build e sha true with Ok d => Some d | Err _ => None end, None).

(** The [if *incBuild] block. *)
Definition inc_stage (sha : string) (w : world) (r : stats) : world * (iter_end + stats) :=
  if negb (incBuild c) then (w, inr r) else
  let '(fs, k, a, err) :=
    withTouchedGLES readable writable umask (root c) (env_rand e) (w_rnd w)
      (inc_callback sha) (w_files w) in
  let w := set_rnd (set_files w fs) k in
  match err with
  | Some _ => (w, inl SkipInc)
  | None =>
      let r := match a with Some (Some d) => set_inc_time d r | _ => r end in
      (w, inr r)
  end.

(** [i := len(cls) - 1 - i; cl := cls[i]] *)
Definition cl_at (cls : list cl) (i0 : nat) : cl := nth (length cls - 1 - i0) cls dummy_cl.

(** The loop body for range index [i0]. *)
Definition body (cls : list cl) (i0 : nat) (w : world) (ds : list deferred)
  : world * list deferred * body_result :=
  let cl := cl_at cls i0 in
  let sha := substring 0 6 (cl_SHA cl) in
  let r := new_stats sha in
  let '(w, err) := checkout w (cl_SHA cl) in
  match err with
  | Some err => (w, ds, BFatal err)
  | None =>
      match env_build e (cl_SHA cl) false with
      | Err _ => (w, ds, BNext SkipBuild)
      | Ok _ =>
          let r := gather_sizes c e (cl_SHA cl) r in
          let '(w, ds, x) := capture_stage (cl_SHA cl) w ds r in
          match x with
          | inl skip => (w, ds, BNext skip)
          | inr r =>
              let '(w, y) := inc_stage (cl_SHA cl) w r in
              match y with
              | inl skip => (w, ds, BNext skip)
              | inr r => (w, ds, BNext (Appended r))
              end
          end
      end
  end.

(** [for i := range cls { ... }] with [res = append(res, r)]. *)
Fixpoint loop (cls : list cl) (idx : list nat) (w : world) (ds : list deferred)
    (res : list stats) : world * list deferred * result (list stats) :=
  match idx with
  | [] => (w, ds, Ok res)
  | i0 :: idx' =>
      match body cls i0 w ds with
      | (w', ds', BFatal err) => (w', ds', Err err)
      | (w', ds', BNext (Appended r)) => loop cls idx' w' ds' (res ++ [r])
      | (w', ds', BNext _) => loop cls idx' w' ds' res
      end
  end.

(** A deferred call; the error of [CheckoutBranch] is dropped. *)
Definition exec_deferred (w : world) (d : deferred) : world :=
  match d with
  | DCheckoutBranch b =>
      let w := log_git w (GCheckoutBranch b) in
      match env_checkout_branch e b with
      | None => set_head w (OnBranch b)
      | Some _ => w
      end
  | DRemove p => set_files w (fst (Remove (w_files w) p))
  | DFlush => flush w
  end.

(** On return, deferred calls run last-registered first; [ds] lists them
    most recent first. *)
Definition run_deferred (ds : list deferred) (w : world) : world :=
  fold_left exec_deferred ds w.

End Driver.

(** The [*root == ""] prelude of [run]. *)
Definition resolve_root (c0 : config) (e : env) : result config :=
  if String.eqb (root c0) "" then
    match env_getwd e with Ok wd => Ok (set_root c0 wd) | Err err => Err err end
  else Ok c0.

(** [tabwriter.NewWriter]: a fresh, empty buffer. *)
Definition new_writer (w : world) : world :=
  mkWorld (w_head w) (w_files w) (w_rnd w) (w_git w) [] (w_stdout w).

(** [run(ctx)] *)
Definition run (readable writable : Z -> bool) (umask : Z) (c0 : config) (e : env)
    (w0 : world) : world * error :=
  match resolve_root c0 e with
  | Err err => (w0, Some err)
  | Ok c =>
  match env_git_new e with
  | Some err => (w0, Some err)
  | None =>
  match env_status e with
  | Err err => (w0, Some err)
  | Ok false => (w0, Some "Local changes found. Please submit any changes and run again")
  | Ok true =>
  match env_branch e with
  | Err err => (w0, Some err)
  | Ok branch =>
      let ds := [DCheckoutBranch branch] in
      match env_log e with
      | Err err => (run_deferred e ds w0, Some err)
      | Ok cls =>
          match loop readable writable umask c e cls (seq 0 (length cls)) w0 ds [] with
          | (w, ds, Err err) => (run_deferred e ds w, Some err)
          | (w, ds, Ok res) =>
              let w := print w (LText "-----------------------") in
              let w := new_writer w in
              let ds := DFlush :: ds in
              let w := tab_print w (LHeader (header c)) in
              let w := fold_left (fun w r => tab_print w (LRow (row c r))) res w in
              (run_deferred e ds w, None)
          end
      end
  end
  end
  end
  end.

(* ================================================================== *)
(** ** Reading of the spec used for comparison *)

(** The value that the spec's "last occurrence wins" reading gives a
    counter: the number of the last match whose word is [name], when that
    number is accepted by [Atoi]. *)
Fixpoint last_parsed_value (name : string) (ms : list (list string)) : option Z :=
  match ms with
  | [] => None
  | m :: ms' =>
      match last_parsed_value name ms' with
      | Some v => Some v
      | None =>
          if Nat.eqb (List.length m) 3 && String.eqb (nth 1 m EmptyString) name then
            match Strconv.Atoi (nth 2 m EmptyString) with
            | Ok n => Some n
            | Err _ => None
            end
          else None
      end
  end.

Definition build_fails (e : env) (x : cl) : bool :=
  match env_build e (cl_SHA x) false with Err _ => true | Ok _ => false end.


(** [w'] differs from [w] at most in its files and generator position. *)
Definition quiet (w w' : world) : Prop :=
  w_head w' = w_head w /\ w_git w' = w_git w /\ w_tab w' = w_tab w /\
  w_stdout w' = w_stdout w.

(* ================================================================== *)
(** ** Helpers of the size loop and the perturbation *)

(** [*f.size], read back. *)
Definition get_size (f : size_field) (s : file_sizes) : Z :=
  match f with
  | F_LibGAPII => LibGAPII s
  | F_LibVkLayerVirtualSwapchain => LibVkLayerVirtualSwapchain s
  | F_GAPIDAarch64APK => GAPIDAarch64APK s
  | F_GAPIDArmeabi64APK => GAPIDArmeabi64APK s
  | F_GAPIDX86APK => GAPIDX86APK s
  | F_GAPID => GAPID s
  | F_GAPIR => GAPIR s
  | F_GAPIS => GAPIS s
  | F_GAPIT => GAPIT s
  end.

(** Every character of [s] is in the class [p]. *)
Fixpoint all_chars (p : ascii -> bool) (s : string) : bool :=
  match s with
  | EmptyString => true
  | String ch s' => p ch && all_chars p s'
  end.

(** The text [withTouchedGLES] writes over the watched file. *)
Definition perturbed (glesAPI : string) (n : Z) : string :=
  (glesAPI ++ nl ++ "cmd void fake_cmd_" ++ pretty n ++ "() {}" ++ nl)%string.

(* ================================================================== *)
(** Bounds of the 64-bit counters. *)
Definition counters_in_range (acc : counters) : Prop :=
  0 <= acc.1.1 < 2 ^ 63 /\ 0 <= acc.1.2 < 2 ^ 63 /\ 0 <= acc.2 < 2 ^ 63.

(** One round of the artifact size loop of [run]. *)
Section SizeLoop.
Variable e : env.
Variable sha : string.

Definition size_step (r : stats) (pf : string * size_field) : stats :=
  let '(path, fld) := pf in
  match env_stat e sha path with Err _ => r | Ok sz => set_size fld sz r end.

End SizeLoop.

(** ** Concrete runs *)

Module Sample.

(** Owner read and write bits of a mode. *)
Definition readable (m : Z) : bool := Z.testbit m 8.
Definition writable (m : Z) : bool := Z.testbit m 7.
Definition umask : Z := 18.

Definition gles : file := mkFile "api" 420.

Definition cls3 : list cl :=
  [mkCL "cccccccccc" "newest"; mkCL "bbbbbbbbbb" "middle"; mkCL "aaaaaaaaaa" "oldest"].

Definition cls1 : list cl := [mkCL "aaaaaaaaaa" "only"].

(** A clean tree on branch [main]; the other outcomes are arguments. *)
Definition mk_env (log : list cl) (build : string -> bool -> result Z)
    (tree : option file) (tr : trace_outcome) (st : call_result)
    (restore : error) : env :=
  mkEnv (Ok "/src") None (Ok true) (Ok "main") (Ok log)
    (fun _ => None) (fun _ => restore) (fun _ => tree) build
    (fun _ _ => Ok 7) (fun _ => tr) (fun _ => st) (fun k => Z.of_nat k).

Definition builds_ok (sha : string) (inc : bool) : result Z :=
  Ok (if inc then 5 else 100).

(** The middle revision of [cls3] does not build. *)
Definition middle_fails (sha : string) (inc : bool) : result Z :=
  if String.eqb sha "bbbbbbbbbb" then Err "build failed" else Ok (if inc then 5 else 100).

(** The perturbed rebuild fails. *)
Definition inc_fails (sha : string) (inc : bool) : result Z :=
  if inc then Err "build failed" else Ok 100.

Definition cfg (inc : bool) (p : string) : config :=
  mkConfig "/src" false inc false p "" "" 3 "linux" "/tmp".

Definition w0 : world := mkWorld (OnBranch "main") ∅ 0 [] [] [].

Definition trace_ok : trace_outcome := TraceOk (mkFile "trace" 420).

(** Listing [cls3] with a failing middle build. *)
Definition env_mid : env :=
  mk_env cls3 middle_fails (Some gles) trace_ok (CallOk "") None.

(** The trace capture fails after writing a partial output file. *)
Definition env_trace_fail : env :=
  mk_env cls1 builds_ok (Some gles)
    (TraceFail "timeout" (Some (mkFile "partial" 420))) (CallOk "") None.

(** The stats command fails. *)
Definition env_stats_fail : env :=
  mk_env cls1 builds_ok (Some gles) trace_ok (CallErr "stats failed") None.

(** The perturbed rebuild fails. *)
Definition env_inc_fails : env :=
  mk_env cls1 inc_fails (Some gles) trace_ok (CallOk "") None.

(** The watched file is missing. *)
Definition env_no_gles : env :=
  mk_env cls1 builds_ok None trace_ok (CallOk "") None.

(** A callback that writes a build output and fails. *)
Definition touch_out (fs : gmap string file) : gmap string file * unit * error :=
  (<["/src/bazel-bin/pkg/gapis" := mkFile "bin" 493]> fs, tt, Some "build failed").

End Sample.

(* ================================================================== *)
(** * Properties *)

(* ------------------------------------------------------------------ *)
(** ** The stats parser *)

Example find_all_sample :
  Regexp.FindAllStringSubmatch "Frames: 12 Draws: 5 Commands: 40" =
  [["Frames: 12"; "Frames"; "12"]; ["Draws: 5"; "Draws"; "5"];
   ["Commands: 40"; "Commands"; "40"]].
Proof. vm_compute. reflexivity. Qed.

Example atoi_range :
  Strconv.Atoi "9223372036854775807" = Ok 9223372036854775807 /\
  Strconv.Atoi "9223372036854775808" = Err "value out of range".
Proof. vm_compute. split; reflexivity. Qed.

Lemma captureStats_nil_error (call : call_result) : snd (captureStats call) = None.
Proof. destruct call; reflexivity. Qed.

(** A match whose word is none of the three counters leaves them alone. *)
Lemma stats_step_other (acc : counters) (whole w d : string) :
  w <> "Frames" -> w <> "Draws" -> w <> "Commands" ->
  stats_step acc [whole; w; d] = acc.
Proof.
  intros H1 H2 H3. destruct acc as [[f dr] cm]. unfold stats_step. simpl.
  destruct (Strconv.Atoi d); [|reflexivity].
  destruct (String.eqb_spec w "Frames"); [contradiction|].
  destruct (String.eqb_spec w "Draws"); [contradiction|].
  destruct (String.eqb_spec w "Commands"); [contradiction|reflexivity].
Qed.

(** One step sets each counter to the value the single match gives it. *)
Lemma stats_step_spec (m : list string) (f d c : Z) :
  stats_step (f, d, c) m =
  (default f (last_parsed_value "Frames" [m]),
   default d (last_parsed_value "Draws" [m]),
   default c (last_parsed_value "Commands" [m])).
Proof.
  unfold stats_step. simpl.
  destruct (Nat.eqb (List.length m) 3); simpl; [|reflexivity].
  generalize (nth 1 m EmptyString) as w; intros w.
  destruct (Strconv.Atoi (nth 2 m EmptyString)) as [n|msg].
  - destruct (String.eqb_spec w "Frames") as [->|Hf]; [reflexivity|].
    destruct (String.eqb_spec w "Draws") as [->|Hd]; [reflexivity|].
    destruct (String.eqb w "Commands"); reflexivity.
  - destruct (String.eqb w "Frames"), (String.eqb w "Draws"),
      (String.eqb w "Commands"); reflexivity.
Qed.

(** The loop of [captureStats] leaves each counter at the number of the last
    match for its word that [Atoi] accepts, or at its starting value. *)
Lemma fold_stats_step (ms : list (list string)) (f d c : Z) :
  fold_left stats_step ms (f, d, c) =
  (default f (last_parsed_value "Frames" ms),
   default d (last_parsed_value "Draws" ms),
   default c (last_parsed_value "Commands" ms)).
Proof.
  revert f d c. induction ms as [|m ms IH]; intros f d c; [reflexivity|].
  cbn [fold_left]. rewrite stats_step_spec, IH. simpl.
  destruct (last_parsed_value "Frames" ms), (last_parsed_value "Draws" ms),
           (last_parsed_value "Commands" ms); reflexivity.
Qed.

Lemma str_app_cons (a : ascii) (x y : string) :
  (String a x ++ y)%string = String a (x ++ y)%string.
Proof. reflexivity. Qed.

Lemma str_app_assoc (x y z : string) : ((x ++ y) ++ z)%string = (x ++ y ++ z)%string.
Proof. induction x as [|a x IH]; [reflexivity|]. rewrite !str_app_cons, IH. reflexivity. Qed.

Lemma span_spec (p : ascii -> bool) (s a b : string) :
  Regexp.span p s = (a, b) -> s = (a ++ b)%string /\ all_chars p a = true.
Proof.
  revert a b. induction s as [|ch s IH]; intros a b H; cbn in H.
  - inversion H; subst. split; reflexivity.
  - destruct (p ch) eqn:Hp.
    + destruct (Regexp.span p s) as [a' b'] eqn:Hs. injection H as <- <-.
      destruct (IH a' b' eq_refl) as [-> Ha].
      split; [reflexivity|cbn; rewrite Hp, Ha; reflexivity].
    + inversion H; subst. split; reflexivity.
Qed.

Lemma match_at_spec (s whole w d rest : string) :
  Regexp.match_at s = Some (whole, w, d, rest) ->
  exists sp, s = (whole ++ rest)%string /\ whole = (w ++ ":" ++ sp ++ d)%string /\
    w <> EmptyString /\ all_chars Regexp.is_letter w = true /\
    sp <> EmptyString /\ all_chars Regexp.is_space sp = true /\
    d <> EmptyString /\ all_chars Regexp.is_digit d = true.
Proof.
  unfold Regexp.match_at.
  destruct (Regexp.span Regexp.is_letter s) as [w1 r1] eqn:H1.
  apply span_spec in H1 as [-> Hw].
  destruct (String.eqb_spec w1 EmptyString) as [_|Hw1]; [discriminate|].
  destruct r1 as [|ch r2]; [discriminate|].
  destruct (Ascii.eqb_spec ch ":"%char) as [->|]; [|discriminate].
  destruct (Regexp.span Regexp.is_space r2) as [sp r3] eqn:H2.
  apply span_spec in H2 as [-> Hsp].
  destruct (String.eqb_spec sp EmptyString) as [_|Hsp1]; [discriminate|].
  destruct (Regexp.span Regexp.is_digit r3) as [d1 r4] eqn:H3.
  apply span_spec in H3 as [-> Hd].
  destruct (String.eqb_spec d1 EmptyString) as [_|Hd1]; [discriminate|].
  intros H. inversion H; subst. exists sp.
  split; [|repeat split; assumption].
  rewrite !str_app_assoc. reflexivity.
Qed.

Lemma all_chars_app (p : ascii -> bool) (x y : string) :
  all_chars p (x ++ y) = all_chars p x && all_chars p y.
Proof.
  induction x as [|ch x IH]; [reflexivity|].
  rewrite str_app_cons. cbn [all_chars]. rewrite IH, andb_assoc. reflexivity.
Qed.

Lemma all_chars_nondigit_digits (d : string) :
  d <> EmptyString -> all_chars Regexp.is_digit d = true ->
  all_chars (fun ch => negb (Regexp.is_digit ch)) d = false.
Proof.
  destruct d as [|ch d]; [contradiction|]. intros _ H. cbn in H |- *.
  apply andb_true_iff in H as [H _]. rewrite H. reflexivity.
Qed.

Lemma find_all_no_digit (fuel : nat) (s : string) :
  all_chars (fun ch => negb (Regexp.is_digit ch)) s = true -> Regexp.find_all fuel s = [].
Proof.
  revert s. induction fuel as [|fuel IH]; intros s Hs; [reflexivity|].
  destruct s as [|ch s']; [reflexivity|]. cbn [Regexp.find_all].
  destruct (Regexp.match_at (String ch s')) as [[[[whole w] d] rest]|] eqn:Hm.
  - exfalso. apply match_at_spec in Hm as [sp [Hs' [Hw [_ [_ [_ [_ [Hd Hdd]]]]]]]].
    rewrite Hs', Hw, !all_chars_app in Hs. cbn in Hs.
    rewrite (all_chars_nondigit_digits d Hd Hdd) in Hs.
    destruct (all_chars _ w), (all_chars _ sp); discriminate Hs.
  - apply IH. cbn in Hs. apply andb_true_iff in Hs as [_ Hs]. exact Hs.
Qed.

Lemma stats_step_unrecognized (acc : counters) (m : list string) :
  unrecognized m -> stats_step acc m = acc.
Proof.
  intros [H1 [H2 H3]]. destruct acc as [[f dr] cm]. unfold stats_step.
  destruct (negb _); [reflexivity|].
  destruct (Strconv.Atoi _); [|reflexivity].
  destruct (String.eqb_spec (nth 1 m EmptyString) "Frames"); [contradiction|].
  destruct (String.eqb_spec (nth 1 m EmptyString) "Draws"); [contradiction|].
  destruct (String.eqb_spec (nth 1 m EmptyString) "Commands"); [contradiction|reflexivity].
Qed.

Lemma fold_unrecognized (u : list (list string)) (acc : counters) :
  Forall unrecognized u -> fold_left stats_step u acc = acc.
Proof.
  revert acc. induction u as [|m u IH]; intros acc Hu; [reflexivity|].
  inversion Hu as [|? ? Hm Hu']; subst. cbn [fold_left].
  rewrite stats_step_unrecognized by exact Hm. apply IH. exact Hu'.
Qed.

Lemma last_parsed_none (name : string) (ms : list (list string)) :
  (forall m, In m ms -> nth 1 m EmptyString <> name) -> last_parsed_value name ms = None.
Proof.
  induction ms as [|m ms IH]; intros H; [reflexivity|]. cbn.
  rewrite IH by (intros m' Hm'; apply H; right; exact Hm').
  destruct (String.eqb_spec (nth 1 m EmptyString) name) as [E|E].
  - exfalso. exact (H m (or_introl eq_refl) E).
  - rewrite andb_false_r. reflexivity.
Qed.

(** C2: on [Frames: 12 Draws: 5 Commands: 40] the parser gives frames 12,
    draws 5 and commands 40.  A match whose word is not one of the three
    counter names (such as [Foo: 9]) changes no counter, whatever their
    values, and inserting any such matches anywhere in the match list leaves
    the result unchanged.  A value that is not numeric (such as
    [Frames: abc]) gives no match: an output without any digit leaves all
    three counters at 0, and whenever no match carries the word [Frames],
    frames stays at 0. *)
Theorem captureStats_examples :
  captureStats (CallOk "Frames: 12 Draws: 5 Commands: 40") = ((12, 5, 40), None) /\
  captureStats (CallOk "Foo: 9") = ((0, 0, 0), None) /\
  captureStats (CallOk "Frames: 12 Foo: 9 Draws: 5 Commands: 40") = ((12, 5, 40), None) /\
  (forall (acc : counters) (m : list string), unrecognized m -> stats_step acc m = acc) /\
  (forall (ms1 u ms2 : list (list string)) (acc : counters),
     Forall unrecognized u ->
     fold_left stats_step (ms1 ++ u ++ ms2) acc = fold_left stats_step (ms1 ++ ms2) acc) /\
  captureStats (CallOk "Frames: abc") = ((0, 0, 0), None) /\
  (forall s : string, all_chars (fun ch => negb (Regexp.is_digit ch)) s = true ->
     captureStats (CallOk s) = ((0, 0, 0), None)) /\
  (forall s : string,
     (forall m, In m (Regexp.FindAllStringSubmatch s) -> nth 1 m EmptyString <> "Frames") ->
     (fst (captureStats (CallOk s))).1.1 = 0).
Proof.
  split; [vm_compute; reflexivity|].
  split; [vm_compute; reflexivity|].
  split; [vm_compute; reflexivity|].
  split; [exact stats_step_unrecognized|].
  split.
  { intros ms1 u ms2 acc Hu. rewrite !fold_left_app, (fold_unrecognized u) by exact Hu. reflexivity. }
  split; [vm_compute; reflexivity|].
  split.
  { intros s Hs. cbn [captureStats]. unfold Regexp.FindAllStringSubmatch.
    rewrite find_all_no_digit by exact Hs. reflexivity. }
  intros s Hs. cbn [captureStats fst]. rewrite fold_stats_step, last_parsed_none by exact Hs.
  reflexivity.
Qed.

(** C10 (counterexample): [Frames] occurs twice; the last occurrence's
    number does not fit in an [int], [Atoi] rejects it, and frames keeps
    the earlier value 1 instead of the last occurrence's value. *)
Lemma captureStats_last_overflow :
  Regexp.FindAllStringSubmatch "Frames: 1 Frames: 99999999999999999999" =
    [["Frames: 1"; "Frames"; "1"];
     ["Frames: 99999999999999999999"; "Frames"; "99999999999999999999"]] /\
  captureStats (CallOk "Frames: 1 Frames: 99999999999999999999") = ((1, 0, 0), None).
Proof. vm_compute. split; reflexivity. Qed.

(** C10 (amended): each counter is the number of the last match of its word
    whose digits [Atoi] accepts (fit in an [int]); later such matches
    overwrite earlier ones; with no such match the counter is 0. *)
Theorem captureStats_last_parsed (stdout : string) :
  captureStats (CallOk stdout) =
  ((default 0 (last_parsed_value "Frames" (Regexp.FindAllStringSubmatch stdout)),
    default 0 (last_parsed_value "Draws" (Regexp.FindAllStringSubmatch stdout)),
    default 0 (last_parsed_value "Commands" (Regexp.FindAllStringSubmatch stdout))),
   None).
Proof. unfold captureStats. rewrite fold_stats_step. reflexivity. Qed.

(* ------------------------------------------------------------------ *)
(** ** The perturbation cycle *)

(** C5: whatever the watched file's bytes and mode, whether the process may
    read or write it, and whatever the callback returns (success or an
    error), the file's bytes and mode after [withTouchedGLES] are those
    before it, provided the callback itself leaves the file alone (as the
    bazel build passed by [run] does). *)
Theorem withTouchedGLES_restores (readable writable : Z -> bool) (umask : Z) {A : Type}
    (rt : string) (rand : nat -> Z) (k : nat)
    (f : gmap string file -> gmap string file * A * error) (fs0 : gmap string file) :
  (forall fs : gmap string file, (f fs).1.1 !! glesAPIPath rt = fs !! glesAPIPath rt) ->
  (withTouchedGLES readable writable umask rt rand k f fs0).1.1.1 !! glesAPIPath rt =
  fs0 !! glesAPIPath rt.
Proof.
  unfold withTouchedGLES. generalize (glesAPIPath rt) as p. intros p Hf.
  unfold Stat, ReadFile.
  destruct (fs0 !! p) as [f0|] eqn:H0; [|cbn; exact H0]. cbn.
  destruct (readable (f_mode f0)); [|cbn; exact H0]. cbn.
  unfold WriteFile at 1. rewrite H0.
  destruct (writable (f_mode f0)) eqn:Hw; cbn.
  - match goal with |- context [f ?x] => set (fs1 := x) end.
    destruct (f fs1) as [[fs2 a] err] eqn:Hf1. cbn.
    assert (H2 : fs2 !! p = fs1 !! p).
    { specialize (Hf fs1). rewrite Hf1 in Hf. exact Hf. }
    unfold WriteFile. rewrite H2. subst fs1. rewrite lookup_insert_eq. cbn.
    rewrite Hw. cbn. rewrite lookup_insert_eq. destruct f0; reflexivity.
  - destruct (f fs0) as [[fs2 a] err] eqn:Hf1. cbn.
    assert (H2 : fs2 !! p = fs0 !! p).
    { specialize (Hf fs0). rewrite Hf1 in Hf. exact Hf. }
    unfold WriteFile. rewrite H2, H0, Hw. cbn. rewrite H2. exact H0.
Qed.

(* ------------------------------------------------------------------ *)
(** ** Shape of one iteration *)

Lemma quiet_refl (w : world) : quiet w w.
Proof. repeat split. Qed.

Lemma quiet_trans (w1 w2 w3 : world) : quiet w1 w2 -> quiet w2 w3 -> quiet w1 w3.
Proof. unfold quiet. intuition congruence. Qed.

Lemma quiet_set_files (w : world) (fs : gmap string file) : quiet w (set_files w fs).
Proof. repeat split. Qed.

Lemma quiet_set_rnd (w : world) (k : nat) : quiet w (set_rnd w k).
Proof. repeat split. Qed.

Create HintDb quiet.
#[local] Hint Resolve quiet_refl quiet_set_files quiet_set_rnd : quiet.

Lemma capture_stage_quiet c e sha w ds r w' ds' x :
  capture_stage c e sha w ds r = (w', ds', x) ->
  quiet w w' /\ exists ps, ds' = map DRemove ps ++ ds.
Proof.
  unfold capture_stage. destruct (String.eqb (pkg c) "").
  - intros H. inversion H; subst. split; [auto with quiet|exists []; reflexivity].
  - destruct (trace c e sha (w_files w)) as [fs tr]. destruct tr as [file|err].
    + destruct (captureStats (env_stats e sha)) as [cnt [err|]];
        intros H; inversion H; subst;
        (split; [auto with quiet|exists [file]; reflexivity]).
    + intros H. inversion H; subst. split; [auto with quiet|exists []; reflexivity].
Qed.

Lemma inc_stage_quiet rd wr um c e sha w r w' y :
  inc_stage rd wr um c e sha w r = (w', y) -> quiet w w'.
Proof.
  unfold inc_stage. destruct (negb (incBuild c)).
  - intros H. inversion H; subst. auto with quiet.
  - destruct (withTouchedGLES rd wr um (root c) (env_rand e) (w_rnd w)
                (inc_callback e sha) (w_files w)) as [[[fs k] a] err].
    destruct err; intros H; inversion H; subst;
      (eapply quiet_trans; [apply quiet_set_files|apply quiet_set_rnd]).
Qed.

(** One iteration makes exactly one checkout call, for [cls[len-1-i]],
    prints nothing, and only defers removals of trace files. *)
Lemma body_shape rd wr um c e cls i0 w ds w' ds' br :
  body rd wr um c e cls i0 w ds = (w', ds', br) ->
  w_git w' = w_git w ++ [GCheckout (cl_SHA (cl_at cls i0))] /\
  w_tab w' = w_tab w /\ w_stdout w' = w_stdout w /\
  (exists ps, ds' = map DRemove ps ++ ds) /\
  match br with
  | BFatal _ => w_head w' = w_head w
  | BNext _ => w_head w' = Detached (cl_SHA (cl_at cls i0))
  end.
Proof.
  unfold body, checkout. generalize (cl_SHA (cl_at cls i0)) as sha. intros sha.
  destruct (env_checkout e sha) as [err|] eqn:Hc; cbn -[capture_stage inc_stage].
  - intros H. inversion H; subst. repeat split; [exists []; reflexivity].
  - set (w1 := set_files _ _).
    destruct (env_build e sha false) as [d|msg].
    2:{ intros H. inversion H; subst. repeat split; exists []; reflexivity. }
    destruct (capture_stage c e sha w1 ds _) as [[w2 ds2] x] eqn:Hcap.
    apply capture_stage_quiet in Hcap as [[Hh2 [Hg2 [Ht2 Hs2]]] Hds2].
    destruct x as [skip|r2].
    + intros H. inversion H; subst. rewrite Hh2, Hg2, Ht2, Hs2. repeat split; auto.
    + destruct (inc_stage rd wr um c e sha w2 r2) as [w3 y] eqn:Hinc.
      apply inc_stage_quiet in Hinc as [Hh3 [Hg3 [Ht3 Hs3]]].
      destruct y as [skip|r3]; intros H; inversion H; subst;
        rewrite Hh3, Hg3, Ht3, Hs3, Hh2, Hg2, Ht2, Hs2; repeat split; auto.
Qed.

(** A record is only appended for a revision that built. *)
Lemma body_appended_built rd wr um c e cls i0 w ds w' ds' r :
  body rd wr um c e cls i0 w ds = (w', ds', BNext (Appended r)) ->
  build_fails e (cl_at cls i0) = false.
Proof.
  unfold body, checkout, build_fails. generalize (cl_SHA (cl_at cls i0)) as sha. intros sha.
  destruct (env_checkout e sha) as [err|]; cbn -[capture_stage inc_stage];
    [intros H; discriminate H|].
  destruct (env_build e sha false) as [d|msg]; [reflexivity|].
  intros H; discriminate H.
Qed.

(** A revision that checks out but does not build ends its iteration at
    the first [continue]: no record, no deferred call. *)
Lemma body_build_fails rd wr um c e cls i0 w ds msg :
  env_checkout e (cl_SHA (cl_at cls i0)) = None ->
  env_build e (cl_SHA (cl_at cls i0)) false = Err msg ->
  exists w', body rd wr um c e cls i0 w ds = (w', ds, BNext SkipBuild).
Proof.
  unfold body, checkout. generalize (cl_SHA (cl_at cls i0)) as sha. intros sha Hc Hb.
  rewrite Hc. cbn -[capture_stage inc_stage]. rewrite Hb. eexists; reflexivity.
Qed.

Lemma loop_any rd wr um c e cls idx w ds res w' ds' rr :
  loop rd wr um c e cls idx w ds res = (w', ds', rr) ->
  (exists cs, w_git w' = w_git w ++ map GCheckout cs) /\
  w_tab w' = w_tab w /\ w_stdout w' = w_stdout w /\
  (exists ps, ds' = map DRemove ps ++ ds).
Proof.
  revert w ds res. induction idx as [|i0 idx IH]; intros w ds res H.
  - inversion H; subst. repeat split; [exists []|exists []]; rewrite ?app_nil_r; reflexivity.
  - cbn in H. destruct (body rd wr um c e cls i0 w ds) as [[w1 ds1] br] eqn:Hb.
    apply body_shape in Hb as [Hg1 [Ht1 [Hs1 [[ps1 Hds1] _]]]].
    assert (Hstep : forall res1,
      loop rd wr um c e cls idx w1 ds1 res1 = (w', ds', rr) ->
      (exists cs, w_git w' = w_git w ++ map GCheckout cs) /\
      w_tab w' = w_tab w /\ w_stdout w' = w_stdout w /\
      (exists ps, ds' = map DRemove ps ++ ds)).
    { intros res1 Hl. apply IH in Hl as [[cs Hg] [Ht [Hs [ps Hds]]]].
      repeat split.
      - exists (cl_SHA (cl_at cls i0) :: cs). rewrite Hg, Hg1, <- app_assoc. reflexivity.
      - congruence.
      - congruence.
      - exists (ps ++ ps1). rewrite Hds, Hds1, map_app, app_assoc. reflexivity. }
    destruct br as [err|[r| | | |]]; try (eapply Hstep; exact H).
    inversion H; subst w' ds' rr. repeat split; try congruence.
    + exists [cl_SHA (cl_at cls i0)]. exact Hg1.
    + exists ps1. exact Hds1.
Qed.

(** A loop that runs to its end checks out each index once, in order,
    and appends at most one record per index, none for a revision that
    does not build. *)
Lemma loop_ok rd wr um c e cls idx w ds res w' ds' res' :
  loop rd wr um c e cls idx w ds res = (w', ds', Ok res') ->
  w_git w' = w_git w ++ map (fun i => GCheckout (cl_SHA (cl_at cls i))) idx /\
  exists extra, res' = res ++ extra /\
    (length extra + length (List.filter (build_fails e) (map (cl_at cls) idx))
     <= length idx)%nat.
Proof.
  revert w ds res. induction idx as [|i0 idx IH]; intros w ds res H.
  - inversion H; subst. split; [rewrite app_nil_r; reflexivity|].
    exists []. rewrite app_nil_r. split; [reflexivity|cbn; lia].
  - cbn in H. destruct (body rd wr um c e cls i0 w ds) as [[w1 ds1] br] eqn:Hb.
    pose proof (body_shape _ _ _ _ _ _ _ _ _ _ _ _ Hb) as [Hg1 _].
    destruct br as [err|x]; [discriminate H|].
    destruct x as [r| | | |];
      apply IH in H as [Hg [extra [Hres Hlen]]];
      (split; [rewrite Hg, Hg1, <- app_assoc; reflexivity|]).
    + pose proof (body_appended_built _ _ _ _ _ _ _ _ _ _ _ _ Hb) as Hbf.
      exists (r :: extra). rewrite Hres, <- app_assoc. split; [reflexivity|].
      cbn. rewrite Hbf. cbn. lia.
    + exists extra. split; [exact Hres|]. cbn.
      destruct (build_fails e (cl_at cls i0)); cbn; lia.
    + exists extra. split; [exact Hres|]. cbn.
      destruct (build_fails e (cl_at cls i0)); cbn; lia.
    + exists extra. split; [exact Hres|]. cbn.
      destruct (build_fails e (cl_at cls i0)); cbn; lia.
    + exists extra. split; [exact Hres|]. cbn.
      destruct (build_fails e (cl_at cls i0)); cbn; lia.
Qed.

(** [for i := range cls { i := len(cls) - 1 - i; cl := cls[i] ... }] visits
    [cls] back to front. *)
Lemma map_cl_at_seq (cls : list cl) :
  map (cl_at cls) (seq 0 (length cls)) = rev cls.
Proof.
  induction cls as [|x l IH] using rev_ind; [reflexivity|].
  rewrite length_app, rev_app_distr. cbn [length rev app].
  replace (length l + 1)%nat with (S (length l)) by lia.
  rewrite <- cons_seq. cbn [map]. f_equal.
  - unfold cl_at. rewrite length_app. cbn [length].
    replace (length l + 1 - 1 - 0)%nat with (length l) by lia.
    rewrite app_nth2 by lia. rewrite Nat.sub_diag. reflexivity.
  - rewrite <- IH, <- seq_shift, map_map. apply map_ext_in.
    intros j Hj. apply in_seq in Hj. unfold cl_at. rewrite length_app. cbn [length].
    replace (length l + 1 - 1 - S j)%nat with (length l - 1 - j)%nat by lia.
    rewrite app_nth1 by lia. reflexivity.
Qed.

Lemma length_filter_rev {A : Type} (f : A -> bool) (l : list A) :
  length (List.filter f (rev l)) = length (List.filter f l).
Proof.
  induction l as [|x l IH]; [reflexivity|].
  cbn [rev]. rewrite List.filter_app, length_app, IH. cbn.
  destruct (f x); cbn; lia.
Qed.

(* ------------------------------------------------------------------ *)
(** ** Paths *)

Lemma list_ascii_of_string_app (x y : string) :
  list_ascii_of_string (x ++ y) = list_ascii_of_string x ++ list_ascii_of_string y.
Proof. induction x as [|a x IH]; simpl; [reflexivity|rewrite IH; reflexivity]. Qed.

(** The trace file and the watched file have different names, so they are
    never the same path. *)
Lemma trace_file_ne_gles (c : config) : trace_file c <> glesAPIPath (root c).
Proof.
  assert (Ht : exists x, list_ascii_of_string (trace_file c) =
                         x ++ list_ascii_of_string "gfxtrace").
  { unfold trace_file, join. cbn [List.filter String.eqb negb].
    destruct (String.eqb (tempdir c) "") eqn:E; cbn.
    - exists (list_ascii_of_string "gapid-regres."). reflexivity.
    - rewrite !list_ascii_of_string_app.
      exists (list_ascii_of_string (tempdir c) ++ list_ascii_of_string "/gapid-regres.").
      rewrite <- app_assoc. reflexivity. }
  assert (Hg : exists y, list_ascii_of_string (glesAPIPath (root c)) =
                         y ++ list_ascii_of_string "gles.api").
  { unfold glesAPIPath, join. cbn [List.filter String.eqb negb].
    destruct (String.eqb (root c) "") eqn:E; cbn.
    - exists (list_ascii_of_string "gapis/api/gles/"). reflexivity.
    - rewrite !list_ascii_of_string_app.
      exists (list_ascii_of_string (root c) ++ list_ascii_of_string "/gapis/api/gles/").
      rewrite <- app_assoc. reflexivity. }
  destruct Ht as [x Hx], Hg as [y Hy]. intros Heq.
  rewrite Heq, Hy in Hx. apply app_inj_2 in Hx as [_ Hx]; [discriminate Hx|reflexivity].
Qed.

(* ------------------------------------------------------------------ *)
(** ** Deferred calls and the table *)

Lemma exec_removes (e : env) (ps : list string) (w : world) :
  quiet w (fold_left (exec_deferred e) (map DRemove ps) w).
Proof.
  revert w. induction ps as [|p ps IH]; intros w; cbn; [apply quiet_refl|].
  eapply quiet_trans; [apply quiet_set_files|apply IH].
Qed.

(** The deferred calls of [run] once the branch is recorded: trace file
    removals, then the single [CheckoutBranch], whose error is dropped. *)
Lemma run_deferred_tail (e : env) (ps : list string) (b : string) (w : world) :
  let w' := run_deferred e (map DRemove ps ++ [DCheckoutBranch b]) w in
  w_git w' = w_git w ++ [GCheckoutBranch b] /\ w_stdout w' = w_stdout w /\
  w_head w' = match env_checkout_branch e b with None => OnBranch b | Some _ => w_head w end.
Proof.
  cbn zeta. unfold run_deferred. rewrite fold_left_app.
  destruct (exec_removes e ps w) as [Hh [Hg [_ Hs]]].
  generalize dependent (fold_left (exec_deferred e) (map DRemove ps) w). intros w1 Hh Hg Hs.
  cbn. destruct (env_checkout_branch e b); cbn; rewrite Hg; repeat split; congruence.
Qed.

Lemma tab_rows (c : config) (res : list stats) (w : world) :
  let w' := fold_left (fun w r => tab_print w (LRow (row c r))) res w in
  w_tab w' = w_tab w ++ map (fun r => LRow (row c r)) res /\
  w_git w' = w_git w /\ w_head w' = w_head w /\ w_stdout w' = w_stdout w.
Proof.
  revert w. induction res as [|r res IH]; intros w; cbn zeta.
  - rewrite app_nil_r. repeat split.
  - cbn [fold_left]. destruct (IH (tab_print w (LRow (row c r)))) as [Ht [Hg [Hh Hs]]].
    rewrite Ht, Hg, Hh, Hs. cbn. rewrite <- app_assoc. repeat split.
Qed.

(* ------------------------------------------------------------------ *)
(** ** Restoring the branch *)







(* ------------------------------------------------------------------ *)
(** ** Visiting order *)

Lemma map_checkouts_seq (cls : list cl) :
  map (fun i => GCheckout (cl_SHA (cl_at cls i))) (seq 0 (length cls)) =
  map (fun x => GCheckout (cl_SHA x)) (rev cls).
Proof.
  rewrite <- map_cl_at_seq, map_map. reflexivity.
Qed.

(** C4: in a run that completes, the git calls are one checkout per
    revision of the listing [cls], [length cls] of them, in the reverse of
    the listing order (oldest first), followed by the branch restore. *)
Theorem run_checkouts_oldest_first rd wr um c0 e w0 w' cls :
  env_log e = Ok cls ->
  run rd wr um c0 e w0 = (w', None) ->
  exists b, w_git w' = w_git w0 ++ map (fun x => GCheckout (cl_SHA x)) (rev cls) ++
                       [GCheckoutBranch b].
Proof.
  intros Hlog H. unfold run in H.
  destruct (resolve_root c0 e) as [c|err]; [|discriminate H].
  destruct (env_git_new e) as [err|]; [discriminate H|].
  destruct (env_status e) as [[|]|err]; [|discriminate H|discriminate H].
  destruct (env_branch e) as [b|err]; [|discriminate H].
  rewrite Hlog in H. exists b.
  destruct (loop rd wr um c e cls (seq 0 (length cls)) w0 [DCheckoutBranch b] [])
    as [[w1 ds1] rr] eqn:Hl.
  destruct rr as [res|err]; [|discriminate H].
  pose proof Hl as Hl'.
  apply loop_any in Hl as [_ [_ [_ [ps ->]]]].
  apply loop_ok in Hl' as [Hg _].
  injection H as Hw. subst w'.
  change (run_deferred e (DFlush :: map DRemove ps ++ [DCheckoutBranch b]) ?w)
    with (run_deferred e (map DRemove ps ++ [DCheckoutBranch b]) (flush w)).
  match goal with |- context [flush ?w] => set (w2 := w) end.
  destruct (tab_rows c res (tab_print (new_writer (print w1 (LText "-----------------------")))
                              (LHeader (header c)))) as [_ [Hg2 _]].
  destruct (run_deferred_tail e ps b (flush w2)) as [Hg3 _].
  rewrite Hg3. cbn. subst w2. rewrite Hg2. cbn.
  rewrite Hg, map_checkouts_seq, <- app_assoc. reflexivity.
Qed.

(* ------------------------------------------------------------------ *)
(** ** Build failures *)

(** C7: a revision that checks out but fails its full build ends its
    iteration with no record and leaves the result list and the deferred
    calls as they were; in a completed run the number of records plus the
    number of revisions whose build fails is at most the window size, and
    the printed output is the separator, the header and one row per record
    in the order the records were appended. *)
Theorem run_build_failures_dropped :
  (forall rd wr um c e cls i0 w ds msg,
     env_checkout e (cl_SHA (cl_at cls i0)) = None ->
     env_build e (cl_SHA (cl_at cls i0)) false = Err msg ->
     exists w', body rd wr um c e cls i0 w ds = (w', ds, BNext SkipBuild) /\
       forall idx res, loop rd wr um c e cls (i0 :: idx) w ds res =
                       loop rd wr um c e cls idx w' ds res) /\
  (forall rd wr um c0 e w0 w' c cls,
     resolve_root c0 e = Ok c ->
     env_log e = Ok cls ->
     run rd wr um c0 e w0 = (w', None) ->
     exists b w1 ds1 res, env_branch e = Ok b /\
       loop rd wr um c e cls (seq 0 (length cls)) w0 [DCheckoutBranch b] [] =
         (w1, ds1, Ok res) /\
       (length res + length (List.filter (build_fails e) cls) <= length cls)%nat /\
       w_stdout w' = w_stdout w0 ++ [LText "-----------------------"; LHeader (header c)] ++
                     map (fun r => LRow (row c r)) res).
Proof.
  split.
  - intros rd wr um c e cls i0 w ds msg Hc Hb.
    destruct (body_build_fails rd wr um c e cls i0 w ds msg Hc Hb) as [w' Hbody].
    exists w'. split; [exact Hbody|]. intros idx res. cbn. rewrite Hbody. reflexivity.
  - intros rd wr um c0 e w0 w' c cls Hroot Hlog H. unfold run in H.
    rewrite Hroot in H.
    destruct (env_git_new e) as [err|]; [discriminate H|].
    destruct (env_status e) as [[|]|err]; [|discriminate H|discriminate H].
    destruct (env_branch e) as [b|err]; [|discriminate H].
    rewrite Hlog in H.
    destruct (loop rd wr um c e cls (seq 0 (length cls)) w0 [DCheckoutBranch b] [])
      as [[w1 ds1] rr] eqn:Hl.
    destruct rr as [res|err]; [|discriminate H].
    exists b, w1, ds1, res. split; [reflexivity|]. split; [exact Hl|].
    pose proof Hl as Hl'.
    apply loop_any in Hl as [_ [_ [Hs1 [ps ->]]]].
    apply loop_ok in Hl' as [_ [extra [Hres Hlen]]].
    cbn in Hres. subst extra.
    split.
    { rewrite map_cl_at_seq, length_filter_rev, length_seq in Hlen. exact Hlen. }
    injection H as Hw. subst w'.
    change (run_deferred e (DFlush :: map DRemove ps ++ [DCheckoutBranch b]) ?w)
      with (run_deferred e (map DRemove ps ++ [DCheckoutBranch b]) (flush w)).
    match goal with |- context [flush ?w] => set (w2 := w) end.
    destruct (tab_rows c res (tab_print (new_writer (print w1 (LText "-----------------------")))
                                (LHeader (header c)))) as [Ht2 [_ [_ Hs2]]].
    destruct (run_deferred_tail e ps b (flush w2)) as [_ [Hs3 _]].
    rewrite Hs3. cbn. subst w2. rewrite Hs2, Ht2. cbn.
    rewrite Hs1, <- app_assoc. reflexivity.
Qed.

(* ------------------------------------------------------------------ *)
(** ** The capture and incremental stages *)

Lemma trace_other (c : config) (e : env) (sha p : string) (fs : gmap string file) :
  p <> trace_file c -> (trace c e sha fs).1 !! p = fs !! p.
Proof.
  intros Hne. unfold trace. destruct (env_trace e sha) as [f|err partial]; cbn -[trace_file].
  - rewrite lookup_insert_ne; [reflexivity|congruence].
  - unfold Remove.
    assert (Hp : (match partial with Some f => <[trace_file c := f]> fs | None => fs end)
                   !! p = fs !! p).
    { destruct partial; [rewrite lookup_insert_ne; [reflexivity|congruence]|reflexivity]. }
    destruct (_ !! trace_file c); cbn -[trace_file];
      [rewrite lookup_delete_ne; [exact Hp|congruence]|exact Hp].
Qed.

Lemma capture_stage_files_other c e sha w ds r w' ds' x p :
  capture_stage c e sha w ds r = (w', ds', x) -> p <> trace_file c ->
  w_files w' !! p = w_files w !! p.
Proof.
  intros H Hne. unfold capture_stage in H. destruct (String.eqb (pkg c) "").
  - inversion H; subst. reflexivity.
  - pose proof (trace_other c e sha p (w_files w) Hne) as Ht.
    destruct (trace c e sha (w_files w)) as [fs tr]. cbn in Ht.
    destruct tr as [file|err].
    + destruct (captureStats (env_stats e sha)) as [cnt [err|]];
        inversion H; subst; exact Ht.
    + inversion H; subst. exact Ht.
Qed.

Lemma capture_stage_inc_time c e sha w ds r w' ds' r' :
  capture_stage c e sha w ds r = (w', ds', inr r') ->
  IncrementalBuildTime r' = IncrementalBuildTime r.
Proof.
  unfold capture_stage. destruct (String.eqb (pkg c) "").
  - intros H. inversion H; subst. reflexivity.
  - destruct (trace c e sha (w_files w)) as [fs [file|err]].
    + destruct (captureStats (env_stats e sha)) as [cnt [err|]];
        intros H; inversion H; subst; reflexivity.
    + intros H. discriminate H.
Qed.

Lemma gather_sizes_inc_time c e sha r :
  IncrementalBuildTime (gather_sizes c e sha r) = IncrementalBuildTime r.
Proof.
  unfold gather_sizes. generalize (artifacts c) as l. intros l. revert r.
  induction l as [|[path fld] l IH]; intros r; [reflexivity|].
  cbn [fold_left]. rewrite IH.
  destruct (env_stat e sha path); [destruct fld|]; reflexivity.
Qed.

(** The watched file is missing or unreadable: the perturbation fails
    before the callback runs. *)
Lemma withTouchedGLES_unreadable rd wr um {A : Type} rt rand k
    (f : gmap string file -> gmap string file * A * error) (fs0 : gmap string file) :
  (fs0 !! glesAPIPath rt = None \/
   exists f0, fs0 !! glesAPIPath rt = Some f0 /\ rd (f_mode f0) = false) ->
  exists msg, withTouchedGLES rd wr um rt rand k f fs0 = (fs0, k, None, Some msg).
Proof.
  unfold withTouchedGLES, Stat, ReadFile. generalize (glesAPIPath rt) as p. intros p H.
  destruct H as [H|[f0 [H Hr]]]; rewrite H; [eexists; reflexivity|].
  rewrite Hr. eexists; reflexivity.
Qed.

(** The watched file is readable: the callback runs and its value and
    error are returned. *)
Lemma withTouchedGLES_readable rd wr um {A : Type} rt rand k
    (f : gmap string file -> gmap string file * A * error) (fs0 : gmap string file) f0 :
  fs0 !! glesAPIPath rt = Some f0 -> rd (f_mode f0) = true ->
  exists fs1 fs', withTouchedGLES rd wr um rt rand k f fs0 = (fs', S k, Some (f fs1).1.2, (f fs1).2).
Proof.
  unfold withTouchedGLES, Stat, ReadFile. generalize (glesAPIPath rt) as p. intros p H Hr.
  rewrite H. cbn. rewrite Hr.
  match goal with |- context [f ?x] => set (fs1 := x) end.
  exists fs1. destruct (f fs1) as [[fs2 a] err]. eexists. reflexivity.
Qed.

Lemma withTouchedGLES_value rd wr um {A : Type} rt rand k
    (f : gmap string file -> gmap string file * A * error) (fs0 fs' : gmap string file) k' a err :
  withTouchedGLES rd wr um rt rand k f fs0 = (fs', k', Some a, err) ->
  exists fs1, (f fs1).1.2 = a /\ (f fs1).2 = err.
Proof.
  intros H. unfold withTouchedGLES in H.
  destruct (Stat fs0 (glesAPIPath rt)) as [mode|msg]; [|discriminate H].
  destruct (ReadFile rd fs0 (glesAPIPath rt)) as [data|msg]; [|discriminate H].
  match type of H with context [f ?x] => set (fs1 := x) in H end.
  exists fs1. destruct (f fs1) as [[fs2 a'] err']. inversion H; subst. split; reflexivity.
Qed.

Lemma inc_stage_unreadable rd wr um c e sha w r :
  incBuild c = true ->
  (w_files w !! glesAPIPath (root c) = None \/
   exists f0, w_files w !! glesAPIPath (root c) = Some f0 /\ rd (f_mode f0) = false) ->
  exists w', inc_stage rd wr um c e sha w r = (w', inl SkipInc).
Proof.
  intros Hinc H. unfold inc_stage. rewrite Hinc. cbn [negb].
  destruct (withTouchedGLES_unreadable rd wr um (root c) (env_rand e) (w_rnd w)
              (inc_callback e sha) (w_files w) H) as [msg ->].
  eexists; reflexivity.
Qed.

(** When the perturbed rebuild fails, the incremental time is untouched. *)
Lemma inc_stage_inc_time rd wr um c e sha w r w' r' msg :
  env_build e sha true = Err msg ->
  inc_stage rd wr um c e sha w r = (w', inr r') ->
  IncrementalBuildTime r' = IncrementalBuildTime r /\ CaptureStats r' = CaptureStats r.
Proof.
  intros Hb. unfold inc_stage. destruct (negb (incBuild c)).
  - intros H. inversion H; subst. split; reflexivity.
  - destruct (withTouchedGLES rd wr um (root c) (env_rand e) (w_rnd w)
                (inc_callback e sha) (w_files w)) as [[[fs k] a] err] eqn:Hw.
    destruct err as [err|]; [intros H; discriminate H|].
    destruct a as [a|]; [|intros H; inversion H; subst; split; reflexivity].
    apply withTouchedGLES_value in Hw as [fs1 [Ha _]].
    unfold inc_callback in Ha. cbn in Ha. rewrite Hb in Ha. subst a.
    intros H. inversion H; subst. split; reflexivity.
Qed.

Lemma inc_stage_passes rd wr um c e sha w r :
  (incBuild c = false \/
   exists f0, w_files w !! glesAPIPath (root c) = Some f0 /\ rd (f_mode f0) = true) ->
  exists w' r', inc_stage rd wr um c e sha w r = (w', inr r') /\
    CaptureStats r' = CaptureStats r.
Proof.
  intros H. unfold inc_stage. destruct (incBuild c) eqn:Hinc; cbn [negb].
  - destruct H as [H|[f0 [Hf Hr]]]; [discriminate H|].
    destruct (withTouchedGLES_readable rd wr um (root c) (env_rand e) (w_rnd w)
                (inc_callback e sha) (w_files w) f0 Hf Hr) as [fs1 [fs' ->]].
    cbn. destruct (env_build e sha true); cbn; eexists _, _; split; reflexivity.
  - eexists _, _. split; reflexivity.
Qed.

(** The loop body once the revision is checked out and built. *)
Lemma body_built rd wr um c e cls i0 w ds d :
  env_checkout e (cl_SHA (cl_at cls i0)) = None ->
  env_build e (cl_SHA (cl_at cls i0)) false = Ok d ->
  body rd wr um c e cls i0 w ds =
  (let sha := cl_SHA (cl_at cls i0) in
   let w1 := set_files (set_head (log_git w (GCheckout sha)) (Detached sha))
               match env_tree e sha with
               | Some f => <[glesAPIPath (root c) := f]> (w_files w)
               | None => delete (glesAPIPath (root c)) (w_files w)
               end in
   let '(w2, ds2, x) :=
     capture_stage c e sha w1 ds (gather_sizes c e sha (new_stats (substring 0 6 sha))) in
   match x with
   | inl skip => (w2, ds2, BNext skip)
   | inr r =>
       let '(w3, y) := inc_stage rd wr um c e sha w2 r in
       match y with
       | inl skip => (w3, ds2, BNext skip)
       | inr r => (w3, ds2, BNext (Appended r))
       end
   end).
Proof.
  unfold body, checkout. generalize (cl_SHA (cl_at cls i0)) as sha. intros sha Hc Hb.
  rewrite Hc. cbn -[capture_stage inc_stage]. rewrite Hb. reflexivity.
Qed.

(** The watched file as [inc_stage] sees it: the revision's version, the
    trace file being elsewhere. *)
Lemma capture_stage_gles c e sha w ds r w' ds' x :
  capture_stage c e sha w ds r = (w', ds', x) ->
  w_files w' !! glesAPIPath (root c) = w_files w !! glesAPIPath (root c).
Proof.
  intros H. eapply capture_stage_files_other; [exact H|].
  intros Heq. apply (trace_file_ne_gles c). symmetry. exact Heq.
Qed.

Lemma checkout_files_gles (c : config) (e : env) (sha : string) (w : world) :
  w_files (set_files (set_head (log_git w (GCheckout sha)) (Detached sha))
             match env_tree e sha with
             | Some f => <[glesAPIPath (root c) := f]> (w_files w)
             | None => delete (glesAPIPath (root c)) (w_files w)
             end) !! glesAPIPath (root c) = env_tree e sha.
Proof.
  cbn. destruct (env_tree e sha); [apply lookup_insert_eq|apply lookup_delete_eq].
Qed.

Lemma capture_stage_no_stats_skip c e sha w ds r w' ds' :
  capture_stage c e sha w ds r <> (w', ds', inl SkipStats).
Proof.
  unfold capture_stage. destruct (String.eqb (pkg c) ""); [discriminate|].
  destruct (trace c e sha (w_files w)) as [fs [file|err]]; [|discriminate].
  pose proof (captureStats_nil_error (env_stats e sha)) as Hn.
  destruct (captureStats (env_stats e sha)) as [cnt err]. cbn in Hn. subst err. discriminate.
Qed.

Lemma capture_stage_skip c e sha w ds r w' ds' skip :
  capture_stage c e sha w ds r = (w', ds', inl skip) -> skip = SkipTrace \/ skip = SkipStats.
Proof.
  unfold capture_stage. destruct (String.eqb (pkg c) ""); [discriminate|].
  destruct (trace c e sha (w_files w)) as [fs [file|err]].
  - destruct (captureStats (env_stats e sha)) as [cnt [err|]];
      intros H; inversion H; subst; [right; reflexivity].
  - intros H. inversion H. left; reflexivity.
Qed.

Lemma inc_stage_skip rd wr um c e sha w r w' skip :
  inc_stage rd wr um c e sha w r = (w', inl skip) -> skip = SkipInc.
Proof.
  unfold inc_stage. destruct (negb (incBuild c)); [discriminate|].
  destruct (withTouchedGLES rd wr um (root c) (env_rand e) (w_rnd w)
              (inc_callback e sha) (w_files w)) as [[[fs k] a] [err|]];
    intros H; inversion H; reflexivity.
Qed.

(* ------------------------------------------------------------------ *)
(** ** Trace and stats failures *)

(** C3: with a workload filter, a revision that checks out and builds but
    whose trace capture fails ends its iteration at that [continue]: no
    record (the sizes gathered are dropped), the result list and the
    deferred calls stay as they were, and no trace output file is left,
    whether or not the failed capture wrote a partial one. *)
Theorem body_trace_failure_skips rd wr um c e cls i0 w ds d msg partial :
  String.eqb (pkg c) "" = false ->
  env_checkout e (cl_SHA (cl_at cls i0)) = None ->
  env_build e (cl_SHA (cl_at cls i0)) false = Ok d ->
  env_trace e (cl_SHA (cl_at cls i0)) = TraceFail msg partial ->
  exists w', body rd wr um c e cls i0 w ds = (w', ds, BNext SkipTrace) /\
    w_files w' !! trace_file c = None /\
    forall idx res, loop rd wr um c e cls (i0 :: idx) w ds res =
                    loop rd wr um c e cls idx w' ds res.
Proof.
  intros Hp Hc Hb Ht.
  assert (Hbody : exists w', body rd wr um c e cls i0 w ds = (w', ds, BNext SkipTrace) /\
                             w_files w' !! trace_file c = None).
  { rewrite (body_built rd wr um c e cls i0 w ds d Hc Hb). cbn zeta.
    unfold capture_stage. rewrite Hp. unfold trace. rewrite Ht.
    cbn -[trace_file Remove]. eexists. split; [reflexivity|]. cbn -[trace_file Remove].
    match goal with |- (Remove ?fs ?p).1 !! _ = None => set (fs1 := fs) end.
    unfold Remove. destruct (fs1 !! trace_file c) eqn:E; cbn -[trace_file];
      [apply lookup_delete_eq|exact E]. }
  destruct Hbody as [w' [Hbody Hf]]. exists w'.
  split; [exact Hbody|]. split; [exact Hf|].
  intros idx res. cbn [loop]. rewrite Hbody. reflexivity.
Qed.

(** C8: when the stats command fails, [captureStats] returns three zero
    counters and no error; the capture stage then goes on to the
    incremental step with zero counters (a failed trace instead ends the
    iteration), and when that step does not skip (incremental timing off,
    or the watched file readable) the revision is recorded with zero
    counters. *)
Theorem captureStats_failure_zero :
  (forall m, captureStats (CallErr m) = ((0, 0, 0), None)) /\
  (forall c e sha w ds r f m,
     String.eqb (pkg c) "" = false ->
     env_trace e sha = TraceOk f ->
     env_stats e sha = CallErr m ->
     capture_stage c e sha w ds r =
       (set_files w (<[trace_file c := f]> (w_files w)), DRemove (trace_file c) :: ds,
        inr (set_capture (0, 0, 0) r))) /\
  (forall rd wr um c e cls i0 w ds d f m,
     String.eqb (pkg c) "" = false ->
     env_checkout e (cl_SHA (cl_at cls i0)) = None ->
     env_build e (cl_SHA (cl_at cls i0)) false = Ok d ->
     env_trace e (cl_SHA (cl_at cls i0)) = TraceOk f ->
     env_stats e (cl_SHA (cl_at cls i0)) = CallErr m ->
     (incBuild c = false \/
      exists f0, env_tree e (cl_SHA (cl_at cls i0)) = Some f0 /\ rd (f_mode f0) = true) ->
     exists w' ds' r, body rd wr um c e cls i0 w ds = (w', ds', BNext (Appended r)) /\
       CaptureStats r = (0, 0, 0)).
Proof.
  assert (Hcap : forall c e sha w ds r f m,
     String.eqb (pkg c) "" = false ->
     env_trace e sha = TraceOk f ->
     env_stats e sha = CallErr m ->
     capture_stage c e sha w ds r =
       (set_files w (<[trace_file c := f]> (w_files w)), DRemove (trace_file c) :: ds,
        inr (set_capture (0, 0, 0) r))).
  { intros c e sha w ds r f m Hp Ht Hs. unfold capture_stage. rewrite Hp.
    unfold trace. rewrite Ht. cbn -[trace_file captureStats]. rewrite Hs. reflexivity. }
  split; [intros m; reflexivity|]. split; [exact Hcap|].
  intros rd wr um c e cls i0 w ds d f m Hp Hc Hb Ht Hs Hinc.
  rewrite (body_built rd wr um c e cls i0 w ds d Hc Hb). cbn zeta.
  match goal with |- context [capture_stage c e ?sha ?w1 ds ?r0] =>
    rewrite (Hcap c e sha w1 ds r0 f m Hp Ht Hs);
    pose proof (capture_stage_gles c e sha w1 ds r0 _ _ _ (Hcap c e sha w1 ds r0 f m Hp Ht Hs)) as Hg;
    rewrite checkout_files_gles in Hg
  end.
  match goal with |- context [inc_stage rd wr um c e ?sha ?w2 ?r2] =>
    destruct (inc_stage_passes rd wr um c e sha w2 r2) as [w3 [r3 [Hi Hcs]]];
    [destruct Hinc as [Hinc|[f0 [Hf0 Hr0]]]; [left; exact Hinc|right; exists f0; split;
       [rewrite Hg; exact Hf0|exact Hr0]]|]
  end.
  rewrite Hi. exists w3, (DRemove (trace_file c) :: ds), r3. split; [reflexivity|].
  rewrite Hcs. reflexivity.
Qed.

(** C9: [captureStats] returns a nil error for every outcome of the stats
    command and every output, so the body's [continue] after
    [captureStats] is never taken: no iteration ends there. *)
Theorem captureStats_never_errors :
  (forall call : call_result, snd (captureStats call) = None) /\
  (forall rd wr um c e cls i0 w ds,
     snd (body rd wr um c e cls i0 w ds) <> BNext SkipStats).
Proof.
  split; [exact captureStats_nil_error|].
  intros rd wr um c e cls i0 w ds.
  destruct (env_checkout e (cl_SHA (cl_at cls i0))) as [err|] eqn:Hc.
  { unfold body, checkout. revert Hc. generalize (cl_SHA (cl_at cls i0)) as sha.
    intros sha Hc. rewrite Hc. discriminate. }
  destruct (env_build e (cl_SHA (cl_at cls i0)) false) as [d|msg] eqn:Hb.
  2:{ destruct (body_build_fails rd wr um c e cls i0 w ds msg Hc Hb) as [w' ->].
      discriminate. }
  rewrite (body_built rd wr um c e cls i0 w ds d Hc Hb). cbn zeta.
  match goal with |- context [capture_stage c e ?sha ?w1 ds ?r0] =>
    destruct (capture_stage c e sha w1 ds r0) as [[w2 ds2] x] eqn:Hcap
  end.
  destruct x as [skip|r2].
  - cbn. intros H. inversion H; subst. eapply capture_stage_no_stats_skip. exact Hcap.
  - match goal with |- context [inc_stage rd wr um c e ?sha w2 r2] =>
      destruct (inc_stage rd wr um c e sha w2 r2) as [w3 [skip|r3]] eqn:Hinc
    end; cbn; [|discriminate].
    apply inc_stage_skip in Hinc. subst skip. discriminate.
Qed.

(* ------------------------------------------------------------------ *)
(** ** Incremental build failures *)

Lemma capture_stage_passes c e sha w ds r :
  (pkg c = "" \/ exists ft, env_trace e sha = TraceOk ft) ->
  exists w' ds' r', capture_stage c e sha w ds r = (w', ds', inr r').
Proof.
  intros Hp. unfold capture_stage.
  destruct (String.eqb_spec (pkg c) "") as [E|E]; [eauto|].
  destruct Hp as [Hp|[ft Hft]]; [contradiction|].
  unfold trace. rewrite Hft. cbn -[trace_file].
  destruct (captureStats (env_stats e sha)) as [cnt err] eqn:Hcs.
  pose proof (captureStats_nil_error (env_stats e sha)) as Hn. rewrite Hcs in Hn. cbn in Hn. subst err.
  eauto.
Qed.

Lemma inc_rebuild_fails_recorded rd wr um c e cls i0 w ds d f0 msg :
  incBuild c = true ->
  (pkg c = "" \/ exists ft, env_trace e (cl_SHA (cl_at cls i0)) = TraceOk ft) ->
  env_checkout e (cl_SHA (cl_at cls i0)) = None ->
  env_build e (cl_SHA (cl_at cls i0)) false = Ok d ->
  env_tree e (cl_SHA (cl_at cls i0)) = Some f0 ->
  rd (f_mode f0) = true ->
  env_build e (cl_SHA (cl_at cls i0)) true = Err msg ->
  exists w' ds' r, body rd wr um c e cls i0 w ds = (w', ds', BNext (Appended r)) /\
    IncrementalBuildTime r = 0 /\
    forall idx res, loop rd wr um c e cls (i0 :: idx) w ds res =
                    loop rd wr um c e cls idx w' ds' (res ++ [r]).
Proof.
  intros Hinc Hp Hc Hb Htree Hr Hib.
  assert (Hbody : exists w' ds' r, body rd wr um c e cls i0 w ds = (w', ds', BNext (Appended r)) /\
                                   IncrementalBuildTime r = 0).
  { rewrite (body_built rd wr um c e cls i0 w ds d Hc Hb). cbn zeta.
    match goal with |- context [capture_stage c e ?sha ?w1 ds ?r0] =>
      destruct (capture_stage_passes c e sha w1 ds r0 Hp) as [w2 [ds2 [r2 Hcap]]];
      pose proof (capture_stage_gles c e sha w1 ds r0 _ _ _ Hcap) as Hg;
      rewrite checkout_files_gles in Hg;
      pose proof (capture_stage_inc_time c e sha w1 ds r0 _ _ _ Hcap) as Hcapt;
      pose proof (gather_sizes_inc_time c e sha (new_stats (substring 0 6 sha))) as Hgs;
      rewrite Hcap
    end.
    match goal with |- context [inc_stage rd wr um c e ?sha w2 r2] =>
      destruct (inc_stage_passes rd wr um c e sha w2 r2) as [w3 [r3 [Hi _]]];
      [right; exists f0; split; [rewrite Hg; exact Htree|exact Hr]|];
      pose proof Hi as Hi';
      apply (inc_stage_inc_time _ _ _ _ _ _ _ _ _ _ _ Hib) in Hi' as [Ht _]
    end.
    rewrite Hi. exists w3, ds2, r3. split; [reflexivity|]. rewrite Ht, Hcapt, Hgs. reflexivity. }
  destruct Hbody as [w' [ds' [r [Hbody Ht]]]].
  exists w', ds', r. split; [exact Hbody|]. split; [exact Ht|].
  intros idx res. cbn [loop]. rewrite Hbody. reflexivity.
Qed.

(** C1 (counterexample): incremental timing on, no workload filter, one
    revision that checks out and builds, but the watched file is missing at
    that revision.  [withTouchedGLES] fails its [os.Stat], [run] takes the
    [continue], and the revision gives no record: the loop ends with an
    empty result list and the table has no row. *)
Lemma inc_stat_failure_skips :
  snd (body Sample.readable Sample.writable Sample.umask (Sample.cfg true "")
         (Sample.mk_env Sample.cls1 Sample.builds_ok None Sample.trace_ok (CallOk "") None)
         Sample.cls1 0 Sample.w0 []) = BNext SkipInc /\
  snd (loop Sample.readable Sample.writable Sample.umask (Sample.cfg true "")
         (Sample.mk_env Sample.cls1 Sample.builds_ok None Sample.trace_ok (CallOk "") None)
         Sample.cls1 (seq 0 1) Sample.w0 [] []) = Ok [] /\
  w_stdout (fst (run Sample.readable Sample.writable Sample.umask (Sample.cfg true "")
         (Sample.mk_env Sample.cls1 Sample.builds_ok None Sample.trace_ok (CallOk "") None)
         Sample.w0)) =
    [LText "-----------------------"; LHeader (header (Sample.cfg true ""))].
Proof. vm_compute. repeat split. Qed.

(** C1 (amended): with incremental timing on, a revision whose watched file
    cannot be stat'ed or read is skipped: it gives no record and leaves the
    result list as it was.  A failing perturbed rebuild is swallowed
    instead: a record appended for that revision keeps an incremental build
    time of 0, and when there is no workload filter or the trace capture
    succeeds, the record is appended to the results. *)
Theorem inc_failure_policy :
  (forall rd wr um c e cls i0 w ds d,
     incBuild c = true ->
     env_checkout e (cl_SHA (cl_at cls i0)) = None ->
     env_build e (cl_SHA (cl_at cls i0)) false = Ok d ->
     (env_tree e (cl_SHA (cl_at cls i0)) = None \/
      exists f0, env_tree e (cl_SHA (cl_at cls i0)) = Some f0 /\ rd (f_mode f0) = false) ->
     exists w' ds' x, body rd wr um c e cls i0 w ds = (w', ds', BNext x) /\
       (forall r, x <> Appended r) /\
       forall idx res, loop rd wr um c e cls (i0 :: idx) w ds res =
                       loop rd wr um c e cls idx w' ds' res) /\
  (forall rd wr um c e cls i0 w ds w' ds' r msg,
     env_build e (cl_SHA (cl_at cls i0)) true = Err msg ->
     body rd wr um c e cls i0 w ds = (w', ds', BNext (Appended r)) ->
     IncrementalBuildTime r = 0) /\
  (forall rd wr um c e cls i0 w ds d f0 msg,
     incBuild c = true ->
     (pkg c = "" \/ exists ft, env_trace e (cl_SHA (cl_at cls i0)) = TraceOk ft) ->
     env_checkout e (cl_SHA (cl_at cls i0)) = None ->
     env_build e (cl_SHA (cl_at cls i0)) false = Ok d ->
     env_tree e (cl_SHA (cl_at cls i0)) = Some f0 ->
     rd (f_mode f0) = true ->
     env_build e (cl_SHA (cl_at cls i0)) true = Err msg ->
     exists w' ds' r, body rd wr um c e cls i0 w ds = (w', ds', BNext (Appended r)) /\
       IncrementalBuildTime r = 0 /\
       forall idx res, loop rd wr um c e cls (i0 :: idx) w ds res =
                       loop rd wr um c e cls idx w' ds' (res ++ [r])).
Proof.
  split; [|split].
  - intros rd wr um c e cls i0 w ds d Hinc Hc Hb Htree.
    assert (Hbody : exists w' ds' x, body rd wr um c e cls i0 w ds = (w', ds', BNext x) /\
                                     forall r, x <> Appended r).
    { rewrite (body_built rd wr um c e cls i0 w ds d Hc Hb). cbn zeta.
      match goal with |- context [capture_stage c e ?sha ?w1 ds ?r0] =>
        destruct (capture_stage c e sha w1 ds r0) as [[w2 ds2] x] eqn:Hcap;
        pose proof (capture_stage_gles c e sha w1 ds r0 _ _ _ Hcap) as Hg;
        rewrite checkout_files_gles in Hg
      end.
      destruct x as [skip|r2].
      - exists w2, ds2, skip. split; [reflexivity|].
        apply capture_stage_skip in Hcap. intros r. destruct Hcap as [->| ->]; discriminate.
      - match goal with |- context [inc_stage rd wr um c e ?sha w2 r2] =>
          destruct (inc_stage_unreadable rd wr um c e sha w2 r2 Hinc) as [w3 Hi];
          [rewrite Hg; exact Htree|]
        end.
        rewrite Hi. exists w3, ds2, SkipInc. split; [reflexivity|discriminate]. }
    destruct Hbody as [w' [ds' [x [Hbody Hx]]]].
    exists w', ds', x. split; [exact Hbody|]. split; [exact Hx|].
    intros idx res. cbn [loop]. rewrite Hbody. destruct x; [|reflexivity..].
    exfalso. eapply Hx. reflexivity.
  - intros rd wr um c e cls i0 w ds w' ds' r msg Hib H.
    destruct (env_checkout e (cl_SHA (cl_at cls i0))) as [err|] eqn:Hc.
    { revert H Hc. unfold body, checkout. generalize (cl_SHA (cl_at cls i0)) as sha.
      intros sha H Hc. rewrite Hc in H. discriminate H. }
    destruct (env_build e (cl_SHA (cl_at cls i0)) false) as [d|m] eqn:Hb.
    2:{ destruct (body_build_fails rd wr um c e cls i0 w ds m Hc Hb) as [w1 Hb1].
        rewrite Hb1 in H. discriminate H. }
    rewrite (body_built rd wr um c e cls i0 w ds d Hc Hb) in H. cbn zeta in H.
    match type of H with context [capture_stage c e ?sha ?w1 ds ?r0] =>
      destruct (capture_stage c e sha w1 ds r0) as [[w2 ds2] x] eqn:Hcap;
      pose proof (gather_sizes_inc_time c e sha (new_stats (substring 0 6 sha))) as Hgs
    end.
    destruct x as [skip|r2].
    { apply capture_stage_skip in Hcap. destruct Hcap as [->| ->]; discriminate H. }
    apply capture_stage_inc_time in Hcap.
    match type of H with context [inc_stage rd wr um c e ?sha w2 r2] =>
      destruct (inc_stage rd wr um c e sha w2 r2) as [w3 [skip|r3]] eqn:Hi
    end.
    { apply inc_stage_skip in Hi. subst skip. discriminate H. }
    apply (inc_stage_inc_time _ _ _ _ _ _ _ _ _ _ _ Hib) in Hi as [Hi _].
    inversion H; subst. rewrite Hi, Hcap, Hgs. reflexivity.
  - intros rd wr um c e cls i0 w ds d f0 msg.
    apply inc_rebuild_fails_recorded.
Qed.

(* ------------------------------------------------------------------ *)
(** ** Further properties of the program *)

(** One match: letters, [:], blanks, digits, and the text after it. *)
Lemma find_all_shape (fuel : nat) (s : string) (m : list string) :
  In m (Regexp.find_all fuel s) ->
  exists w sp d, m = [(w ++ ":" ++ sp ++ d)%string; w; d] /\
    w <> EmptyString /\ all_chars Regexp.is_letter w = true /\
    sp <> EmptyString /\ all_chars Regexp.is_space sp = true /\
    d <> EmptyString /\ all_chars Regexp.is_digit d = true.
Proof.
  revert s. induction fuel as [|fuel IH]; intros s H; [destruct H|].
  destruct s as [|ch s']; [destruct H|]. cbn [Regexp.find_all] in H.
  destruct (Regexp.match_at (String ch s')) as [[[[whole w] d] rest]|] eqn:Hm.
  - destruct H as [<-|H]; [|exact (IH _ H)].
    apply match_at_spec in Hm as [sp [_ [-> Hrest]]]. exists w, sp, d. split; [reflexivity|exact Hrest].
  - exact (IH _ H).
Qed.

(** X1: every submatch list found by the stats expression [([a-zA-Z]+):\s+([0-9]+)] has three entries: the whole match, a nonempty run of ASCII letters and a nonempty run of decimal digits; the whole match is the letters, a colon, a nonempty run of blanks and the digits. *)
Theorem FindAllStringSubmatch_shape (s : string) (m : list string) :
  In m (Regexp.FindAllStringSubmatch s) ->
  exists w sp d, m = [(w ++ ":" ++ sp ++ d)%string; w; d] /\
    w <> EmptyString /\ all_chars Regexp.is_letter w = true /\
    sp <> EmptyString /\ all_chars Regexp.is_space sp = true /\
    d <> EmptyString /\ all_chars Regexp.is_digit d = true.
Proof. apply find_all_shape. Qed.

Lemma find_all_in_order (fuel : nat) (s : string) :
  exists gaps tail, length gaps = length (Regexp.find_all fuel s) /\
    s = (fold_right String.append EmptyString
           (zip_with (fun g m => g ++ nth 0 m EmptyString)%string gaps (Regexp.find_all fuel s))
         ++ tail)%string.
Proof.
  revert s. induction fuel as [|fuel IH]; intros s.
  - exists [], s. split; reflexivity.
  - destruct s as [|ch s']; [exists [], EmptyString; split; reflexivity|].
    cbn [Regexp.find_all].
    destruct (Regexp.match_at (String ch s')) as [[[[whole w] d] rest]|] eqn:Hm.
    + destruct (IH rest) as [gaps [tail [Hl Hs]]].
      apply match_at_spec in Hm as [sp [Hs0 _]].
      exists (EmptyString :: gaps), tail. split; [cbn; rewrite Hl; reflexivity|].
      rewrite Hs0. cbn. rewrite str_app_assoc, <- Hs. reflexivity.
    + destruct (IH s') as [gaps [tail [Hl Hs]]].
      destruct gaps as [|g gaps].
      * destruct (Regexp.find_all fuel s'); [|discriminate Hl].
        exists [], (String ch tail). split; [reflexivity|]. cbn in Hs |- *. rewrite Hs. reflexivity.
      * destruct (Regexp.find_all fuel s') as [|m ms] eqn:E; [discriminate Hl|].
        exists (String ch g :: gaps), tail. split; [exact Hl|].
        cbn in Hs |- *. rewrite Hs. reflexivity.
Qed.

(** X2: the matches are found left to right without overlap: the input is, for each match in turn, some skipped text followed by its whole match, and then a remaining tail. *)
Theorem FindAllStringSubmatch_in_order (s : string) :
  exists gaps tail, length gaps = length (Regexp.FindAllStringSubmatch s) /\
    s = (fold_right String.append EmptyString
           (zip_with (fun g m => g ++ nth 0 m EmptyString)%string gaps
              (Regexp.FindAllStringSubmatch s))
         ++ tail)%string.
Proof. apply find_all_in_order. Qed.

Lemma is_digit_range (ch : ascii) :
  Regexp.is_digit ch = true -> (48 <= nat_of_ascii ch <= 57)%nat.
Proof.
  unfold Regexp.is_digit, Regexp.in_range. intros H.
  apply andb_true_iff in H as [H1 H2]. apply Nat.leb_le in H1, H2. lia.
Qed.

Lemma all_digits_chars (s : string) : Strconv.all_digits s = all_chars Regexp.is_digit s.
Proof. induction s as [|ch s IH]; cbn; [reflexivity|rewrite IH; reflexivity]. Qed.

Lemma digits_val_nonneg (acc : Z) (s : string) :
  Strconv.all_digits s = true -> 0 <= acc -> 0 <= Strconv.digits_val_aux acc s.
Proof.
  revert acc. induction s as [|ch s IH]; intros acc Hs Hacc; cbn in *; [exact Hacc|].
  apply andb_true_iff in Hs as [Hc Hs]. apply is_digit_range in Hc.
  apply IH; [exact Hs|]. lia.
Qed.

(** X3: every value accepted by [strconv.Atoi] lies in the signed 64-bit range [-2^63, 2^63). *)
Theorem Atoi_range (s : string) (n : Z) :
  Strconv.Atoi s = Ok n -> - 2 ^ 63 <= n < 2 ^ 63.
Proof.
  unfold Strconv.Atoi.
  destruct (match s with
            | String c b => if Ascii.eqb c "-"%char then (true, b)
                            else if Ascii.eqb c "+"%char then (false, b) else (false, s)
            | EmptyString => (false, s) end) as [neg body].
  destruct (String.eqb body EmptyString); [discriminate|].
  destruct (Strconv.all_digits body) eqn:Hd; cbn [negb]; [|discriminate].
  pose proof (digits_val_nonneg 0 body Hd (Z.le_refl 0)) as Hn.
  destruct neg.
  - destruct (Z.leb_spec (Strconv.digits_val_aux 0 body) (2 ^ 63)) as [Hlt|Hlt]; [|discriminate].
    intros Hok. inversion Hok; subst. lia.
  - destruct (Z.ltb_spec (Strconv.digits_val_aux 0 body) (2 ^ 63)) as [Hlt|Hlt]; [|discriminate].
    intros Hok. inversion Hok; subst. lia.
Qed.

Lemma digit_not_sign (ch : ascii) :
  Regexp.is_digit ch = true -> Ascii.eqb ch "-"%char = false /\ Ascii.eqb ch "+"%char = false.
Proof.
  intros H. apply is_digit_range in H.
  split.
  - destruct (Ascii.eqb_spec ch "-"%char) as [E|E]; [subst ch; vm_compute in H; lia|reflexivity].
  - destruct (Ascii.eqb_spec ch "+"%char) as [E|E]; [subst ch; vm_compute in H; lia|reflexivity].
Qed.

Lemma Atoi_digits (d : string) (n : Z) :
  all_chars Regexp.is_digit d = true -> Strconv.Atoi d = Ok n -> 0 <= n < 2 ^ 63.
Proof.
  intros Hd Hok. pose proof (Atoi_range _ _ Hok) as [_ Hup]. split; [|exact Hup].
  destruct d as [|ch d']; [discriminate|].
  cbn in Hd. apply andb_true_iff in Hd as [Hc _].
  destruct (digit_not_sign ch Hc) as [Hm Hp].
  unfold Strconv.Atoi in Hok. rewrite Hm, Hp in Hok.
  cbn -[Strconv.digits_val_aux Strconv.all_digits] in Hok.
  destruct (Strconv.all_digits (String ch d')) eqn:Ha; cbn [negb] in Hok; [|discriminate].
  destruct (Strconv.digits_val_aux 0 (String ch d') <? 2 ^ 63); [|discriminate].
  injection Hok as <-. exact (digits_val_nonneg 0 (String ch d') Ha (Z.le_refl 0)).
Qed.

Lemma stats_step_range (acc : counters) (m : list string) :
  (exists w sp d, m = [(w ++ ":" ++ sp ++ d)%string; w; d] /\
    w <> EmptyString /\ all_chars Regexp.is_letter w = true /\
    sp <> EmptyString /\ all_chars Regexp.is_space sp = true /\
    d <> EmptyString /\ all_chars Regexp.is_digit d = true) ->
  counters_in_range acc -> counters_in_range (stats_step acc m).
Proof.
  intros [w [sp [d [-> [_ [_ [_ [_ [_ Hd]]]]]]]]] Hacc.
  destruct acc as [[f dr] cm]. unfold stats_step. cbn [length Nat.eqb negb nth].
  destruct (Strconv.Atoi d) as [n|err] eqn:Ha; [|exact Hacc].
  pose proof (Atoi_digits d n Hd Ha) as Hn. unfold counters_in_range in *. cbn in Hacc.
  destruct (String.eqb w "Frames"); [cbn; lia|].
  destruct (String.eqb w "Draws"); [cbn; lia|].
  destruct (String.eqb w "Commands"); cbn; lia.
Qed.

(** X5: the frame, draw call and command counts returned by [captureStats] are always between 0 and 2^63 - 1. *)
Theorem captureStats_range (call : call_result) :
  counters_in_range (fst (captureStats call)).
Proof.
  destruct call as [stdout|m]; [|unfold counters_in_range; cbn; lia].
  cbn [captureStats fst].
  pose proof (FindAllStringSubmatch_shape stdout) as Hsh.
  generalize dependent (Regexp.FindAllStringSubmatch stdout). intros ms Hsh.
  assert (H0 : counters_in_range (0, 0, 0)) by (unfold counters_in_range; cbn; lia).
  revert H0. generalize (0 : Z, 0 : Z, 0 : Z) as acc.
  induction ms as [|m ms IH]; intros acc Hacc; [exact Hacc|].
  cbn [fold_left]. apply IH; [intros m' Hm'; apply Hsh; right; exact Hm'|].
  apply stats_step_range; [apply Hsh; left; reflexivity|exact Hacc].
Qed.

(** A leading [+] before a digit gives the same result as no sign, and a
    leading [-] negates every accepted value. *)
Lemma Atoi_plus_minus (ch : ascii) (s : string) :
  Regexp.is_digit ch = true ->
  Strconv.Atoi (String "+" (String ch s)) = Strconv.Atoi (String ch s) /\
  (forall n, Strconv.Atoi (String ch s) = Ok n ->
             Strconv.Atoi (String "-" (String ch s)) = Ok (- n)).
Proof.
  intros Hc. destruct (digit_not_sign ch Hc) as [Hm Hp].
  unfold Strconv.Atoi. rewrite Hm, Hp. cbn -[Strconv.digits_val_aux Strconv.all_digits].
  split; [reflexivity|].
  intros n. destruct (negb (Strconv.all_digits (String ch s))); [discriminate|].
  destruct (Z.ltb_spec (Strconv.digits_val_aux 0 (String ch s)) (2 ^ 63)) as [Hlt|Hlt];
    [|discriminate].
  intros Hok. injection Hok as <-.
  destruct (Z.leb_spec (Strconv.digits_val_aux 0 (String ch s)) (2 ^ 63)); [reflexivity|lia].
Qed.

(** X4: on a string that starts with a digit, a leading plus sign is accepted
    exactly when the unsigned text is, with the same value, and a leading
    minus sign negates every accepted value. *)
Theorem Atoi_sign (ch : ascii) (s : string) (n : Z) :
  Regexp.is_digit ch = true ->
  (Strconv.Atoi (String "+" (String ch s)) = Ok n <-> Strconv.Atoi (String ch s) = Ok n) /\
  (Strconv.Atoi (String ch s) = Ok n -> Strconv.Atoi (String "-" (String ch s)) = Ok (- n)).
Proof.
  intros Hc. destruct (Atoi_plus_minus ch s Hc) as [Hp Hm]. rewrite Hp.
  split; [reflexivity|apply Hm].
Qed.

(** *** The artifact size loop *)
Lemma get_set_size_eq (f : size_field) (v : Z) (r : stats) :
  get_size f (FileSizes (set_size f v r)) = v.
Proof. destruct f; reflexivity. Qed.

Lemma get_set_size_ne (f f' : size_field) (v : Z) (r : stats) :
  f <> f' -> get_size f (FileSizes (set_size f' v r)) = get_size f (FileSizes r).
Proof. intros H. destruct f, f'; solve [reflexivity|contradiction]. Qed.

Lemma set_size_other (f : size_field) (v : Z) (r : stats) :
  SHA (set_size f v r) = SHA r /\ BuildTime (set_size f v r) = BuildTime r /\
  IncrementalBuildTime (set_size f v r) = IncrementalBuildTime r /\
  CaptureStats (set_size f v r) = CaptureStats r.
Proof. destruct f; repeat split. Qed.

Lemma gather_sizes_fold c e sha r :
  gather_sizes c e sha r = fold_left (size_step e sha) (artifacts c) r.
Proof. reflexivity. Qed.

Lemma fold_sizes_other e sha (l : list (string * size_field)) (r : stats) (f : size_field) :
  ~ In f (map snd l) ->
  get_size f (FileSizes (fold_left (size_step e sha) l r)) = get_size f (FileSizes r).
Proof.
  revert r. induction l as [|[p f'] l IH]; intros r Hf; [reflexivity|].
  cbn [fold_left]. rewrite IH; [|intros Hin; apply Hf; right; exact Hin].
  cbn. destruct (env_stat e sha p); [|reflexivity].
  apply get_set_size_ne. intros ->. apply Hf. left. reflexivity.
Qed.

Lemma fold_sizes_in e sha (l : list (string * size_field)) (r : stats) (p : string) (f : size_field) :
  List.NoDup (map snd l) -> In (p, f) l ->
  get_size f (FileSizes (fold_left (size_step e sha) l r)) =
  match env_stat e sha p with Ok sz => sz | Err _ => get_size f (FileSizes r) end.
Proof.
  revert r. induction l as [|[p' f'] l IH]; intros r Hnd Hin; [destruct Hin|].
  cbn [map snd] in Hnd. apply List.NoDup_cons_iff in Hnd as [Hnotin Hnd].
  cbn [fold_left]. destruct Hin as [Heq|Hin].
  - injection Heq as -> ->. rewrite fold_sizes_other by exact Hnotin.
    cbn. destruct (env_stat e sha p); [apply get_set_size_eq|reflexivity].
  - rewrite (IH _ Hnd Hin). destruct (env_stat e sha p); [reflexivity|].
    cbn. destruct (env_stat e sha p'); [|reflexivity].
    apply get_set_size_ne. intros ->. apply Hnotin. apply (in_map snd) in Hin. exact Hin.
Qed.

Lemma fold_sizes_rest e sha (l : list (string * size_field)) (r : stats) :
  let r' := fold_left (size_step e sha) l r in
  SHA r' = SHA r /\ BuildTime r' = BuildTime r /\
  IncrementalBuildTime r' = IncrementalBuildTime r /\ CaptureStats r' = CaptureStats r.
Proof.
  revert r. induction l as [|[p f] l IH]; intros r; cbn zeta; [repeat split|].
  cbn [fold_left]. destruct (IH (size_step e sha r (p, f))) as [H1 [H2 [H3 H4]]].
  rewrite H1, H2, H3, H4. cbn. destruct (env_stat e sha p); [apply set_size_other|repeat split].
Qed.

Lemma artifacts_fields_nodup (c : config) : List.NoDup (map snd (artifacts c)).
Proof. cbn. repeat constructor; cbn; intuition discriminate. Qed.

(** X6: after the artifact size loop of [run], each size field holds the size reported by [os.Stat] for its artifact path, or its earlier value when that stat fails; the SHA, the build times and the capture stats are left unchanged. *)
Theorem gather_sizes_spec (c : config) (e : env) (sha : string) (r : stats) :
  (forall p f, In (p, f) (artifacts c) ->
     get_size f (FileSizes (gather_sizes c e sha r)) =
     match env_stat e sha p with Ok sz => sz | Err _ => get_size f (FileSizes r) end) /\
  SHA (gather_sizes c e sha r) = SHA r /\ BuildTime (gather_sizes c e sha r) = BuildTime r /\
  IncrementalBuildTime (gather_sizes c e sha r) = IncrementalBuildTime r /\
  CaptureStats (gather_sizes c e sha r) = CaptureStats r.
Proof.
  rewrite gather_sizes_fold. split.
  - intros p f Hin. apply fold_sizes_in; [apply artifacts_fields_nodup|exact Hin].
  - apply fold_sizes_rest.
Qed.

(** *** The table *)

(** X8: every table row printed by [run] has as many cells as the table header. *)
Theorem row_header_length (c : config) (r : stats) : length (row c r) = length (header c).
Proof.
  unfold row, header. destruct (CaptureStats r) as [[f d] m].
  destruct (incBuild c), (negb (String.eqb (pkg c) "")); reflexivity.
Qed.

(** *** withTouchedGLES and trace *)
Lemma WriteFile_other wr um (fs : gmap string file) (p data : string) (perm : Z) (q : string) :
  q <> p -> (WriteFile wr um fs p data perm).1 !! q = fs !! q.
Proof.
  intros Hne. unfold WriteFile. destruct (fs !! p) as [f|].
  - destruct (wr (f_mode f)); cbn; [apply lookup_insert_ne; congruence|reflexivity].
  - cbn. apply lookup_insert_ne. congruence.
Qed.

Lemma withTouchedGLES_lookup rd wr um {A : Type} (rt : string) (rand : nat -> Z) (k : nat)
    (f : gmap string file -> gmap string file * A * error) (fs0 : gmap string file) (q : string) :
  (forall fs : gmap string file, (f fs).1.1 !! q = fs !! q) ->
  (withTouchedGLES rd wr um rt rand k f fs0).1.1.1 !! q = fs0 !! q.
Proof.
  unfold withTouchedGLES. generalize (glesAPIPath rt) as p. intros p Hf.
  destruct (decide (q = p)) as [->|Hne].
  - unfold Stat, ReadFile.
    destruct (fs0 !! p) as [f0|] eqn:H0; [|cbn; exact H0]. cbn.
    destruct (rd (f_mode f0)); [|cbn; exact H0]. cbn.
    unfold WriteFile at 1. rewrite H0.
    destruct (wr (f_mode f0)) eqn:Hw; cbn.
    + match goal with |- context [f ?x] => set (fs1 := x) end.
      destruct (f fs1) as [[fs2 a] err] eqn:Hf1. cbn.
      assert (H2 : fs2 !! p = fs1 !! p).
      { specialize (Hf fs1). rewrite Hf1 in Hf. exact Hf. }
      unfold WriteFile. rewrite H2. subst fs1. rewrite lookup_insert_eq. cbn.
      rewrite Hw. cbn. rewrite lookup_insert_eq. destruct f0; reflexivity.
    + destruct (f fs0) as [[fs2 a] err] eqn:Hf1. cbn.
      assert (H2 : fs2 !! p = fs0 !! p).
      { specialize (Hf fs0). rewrite Hf1 in Hf. exact Hf. }
      unfold WriteFile. rewrite H2, H0, Hw. cbn. rewrite H2. exact H0.
  - destruct (Stat fs0 p) as [mode|msg]; [|reflexivity].
    destruct (ReadFile rd fs0 p) as [data|msg]; [|reflexivity].
    match goal with |- context [f ?x] => set (fs1 := x) end.
    destruct (f fs1) as [[fs2 a] err] eqn:Hf1. cbn.
    rewrite WriteFile_other by exact Hne.
    specialize (Hf fs1). rewrite Hf1 in Hf. cbn in Hf. rewrite Hf.
    subst fs1. apply WriteFile_other. exact Hne.
Qed.

(** X9: [withTouchedGLES] leaves unchanged every file that its callback leaves unchanged. *)
Theorem withTouchedGLES_frame rd wr um {A : Type} (rt : string) (rand : nat -> Z) (k : nat)
    (f : gmap string file -> gmap string file * A * error) (fs0 : gmap string file) (q : string) :
  (forall fs : gmap string file, (f fs).1.1 !! q = fs !! q) ->
  (withTouchedGLES rd wr um rt rand k f fs0).1.1.1 !! q = fs0 !! q.
Proof. apply withTouchedGLES_lookup. Qed.

(** X10: when the watched API file is readable, [withTouchedGLES] consumes one random number and runs the callback exactly once, on the file system where the API file has the marker command appended if it was writable, and returns the callback's error as its own. *)
Theorem withTouchedGLES_callback_input (rd wr : Z -> bool) (um : Z) {A : Type} (rt : string) (rand : nat -> Z)
    (k : nat) (f : gmap string file -> gmap string file * A * error)
    (fs0 : gmap string file) (f0 : file) :
  fs0 !! glesAPIPath rt = Some f0 -> rd (f_mode f0) = true ->
  let fs1 := if wr (f_mode f0)
             then <[glesAPIPath rt := mkFile (perturbed (f_data f0) (rand k)) (f_mode f0)]> fs0
             else fs0 in
  exists fs', withTouchedGLES rd wr um rt rand k f fs0 = (fs', S k, Some (f fs1).1.2, (f fs1).2).
Proof.
  unfold withTouchedGLES, perturbed, Stat, ReadFile. generalize (glesAPIPath rt) as p.
  intros p H Hr. cbn zeta. rewrite H. cbn. rewrite Hr.
  unfold WriteFile at 1. rewrite H.
  destruct (wr (f_mode f0)); cbn;
    (match goal with |- context [f ?x] => destruct (f x) as [[fs2 a] err] end);
    eexists; reflexivity.
Qed.

(** X11: when the watched API file is missing or unreadable, [withTouchedGLES] returns an error without running the callback, without drawing a random number and without changing any file. *)
Theorem withTouchedGLES_fails rd wr um {A : Type} (rt : string) (rand : nat -> Z) (k : nat)
    (f : gmap string file -> gmap string file * A * error) (fs0 : gmap string file) :
  (fs0 !! glesAPIPath rt = None \/
   exists f0, fs0 !! glesAPIPath rt = Some f0 /\ rd (f_mode f0) = false) ->
  exists msg, withTouchedGLES rd wr um rt rand k f fs0 = (fs0, k, None, Some msg).
Proof. apply withTouchedGLES_unreadable. Qed.

(** X12: [trace] writes the capture file at its fixed output path and returns that path when the capture succeeds; when it fails, the error is returned and no file is left at that path; no other file is changed. *)
Theorem trace_spec (c : config) (e : env) (sha : string) (fs : gmap string file) :
  (trace c e sha fs).1 !! trace_file c =
    match env_trace e sha with TraceOk f => Some f | TraceFail _ _ => None end /\
  (trace c e sha fs).2 =
    match env_trace e sha with TraceOk _ => Ok (trace_file c) | TraceFail m _ => Err m end /\
  forall p, p <> trace_file c -> (trace c e sha fs).1 !! p = fs !! p.
Proof.
  split; [|split; [|intros p; apply trace_other]].
  - unfold trace. destruct (env_trace e sha) as [f|err partial]; cbn -[trace_file].
    + apply lookup_insert_eq.
    + match goal with |- (Remove ?fs ?p).1 !! _ = _ => set (fs1 := fs) end.
      unfold Remove. destruct (fs1 !! trace_file c) eqn:E; cbn -[trace_file];
        [apply lookup_delete_eq|exact E].
  - unfold trace. destruct (env_trace e sha); reflexivity.
Qed.

(** *** The driver *)
Lemma inc_stage_files rd wr um c e sha w r w' y (q : string) :
  inc_stage rd wr um c e sha w r = (w', y) -> w_files w' !! q = w_files w !! q.
Proof.
  unfold inc_stage. destruct (negb (incBuild c)).
  - intros H. inversion H; subst. reflexivity.
  - pose proof (withTouchedGLES_lookup rd wr um (root c) (env_rand e) (w_rnd w)
                  (inc_callback e sha) (w_files w) q (fun fs => eq_refl)) as Hq.
    destruct (withTouchedGLES rd wr um (root c) (env_rand e) (w_rnd w)
                (inc_callback e sha) (w_files w)) as [[[fs k] a] err].
    cbn in Hq. destruct err; intros H; inversion H; subst; exact Hq.
Qed.

(** X13: after an iteration of [run] that is not aborted, the watched API file has the content it has in the checked-out revision: the perturbation is undone. *)
Theorem body_watched_file rd wr um c e cls i0 w ds w' ds' x :
  body rd wr um c e cls i0 w ds = (w', ds', BNext x) ->
  w_files w' !! glesAPIPath (root c) = env_tree e (cl_SHA (cl_at cls i0)).
Proof.
  unfold body, checkout. generalize (cl_SHA (cl_at cls i0)) as sha. intros sha.
  destruct (env_checkout e sha) as [err|]; cbn -[capture_stage inc_stage glesAPIPath];
    [intros H; discriminate H|].
  pose proof (checkout_files_gles c e sha w) as H1.
  set (w1 := set_files _ _) in *.
  destruct (env_build e sha false) as [d|msg].
  2:{ intros H. inversion H; subst. exact H1. }
  destruct (capture_stage c e sha w1 ds _) as [[w2 ds2] y] eqn:Hcap.
  pose proof (capture_stage_gles _ _ _ _ _ _ _ _ _ Hcap) as H2.
  destruct y as [skip|r2].
  - intros H. inversion H; subst. congruence.
  - destruct (inc_stage rd wr um c e sha w2 r2) as [w3 z] eqn:Hinc.
    pose proof (inc_stage_files _ _ _ _ _ _ _ _ _ _ (glesAPIPath (root c)) Hinc) as H3.
    destruct z; intros H; inversion H; subst; congruence.
Qed.

Lemma trace_lookup_self (c : config) (e : env) (sha : string) (fs : gmap string file) :
  (trace c e sha fs).1 !! trace_file c =
    match env_trace e sha with TraceOk f => Some f | TraceFail _ _ => None end.
Proof.
  unfold trace. destruct (env_trace e sha) as [f|err partial]; cbn -[trace_file].
  - apply lookup_insert_eq.
  - match goal with |- (Remove ?fs ?p).1 !! _ = _ => set (fs1 := fs) end.
    unfold Remove. destruct (fs1 !! trace_file c) eqn:E; cbn -[trace_file];
      [apply lookup_delete_eq|exact E].
Qed.

Lemma capture_stage_ds c e sha w ds r w' ds' x :
  capture_stage c e sha w ds r = (w', ds', x) ->
  (ds' = ds \/ ds' = DRemove (trace_file c) :: ds) /\
  ((w_files w !! trace_file c = None \/ In (DRemove (trace_file c)) ds) ->
   (w_files w' !! trace_file c = None \/ In (DRemove (trace_file c)) ds')).
Proof.
  unfold capture_stage. destruct (String.eqb (pkg c) "").
  - intros H. inversion H; subst. split; [left; reflexivity|exact id].
  - pose proof (trace_lookup_self c e sha (w_files w)) as Hl.
    unfold trace in *. destruct (env_trace e sha) as [f|err partial]; cbn -[trace_file] in *.
    + destruct (captureStats (env_stats e sha)) as [cnt [err|]];
        intros H; inversion H; subst;
        (split; [right; reflexivity|intros _; right; left; reflexivity]).
    + intros H. inversion H; subst. split; [left; reflexivity|intros _; left; exact Hl].
Qed.

Lemma body_ds_inv rd wr um c e cls i0 w ds w' ds' br :
  body rd wr um c e cls i0 w ds = (w', ds', br) ->
  (exists n, ds' = repeat (DRemove (trace_file c)) n ++ ds) /\
  ((w_files w !! trace_file c = None \/ In (DRemove (trace_file c)) ds) ->
   (w_files w' !! trace_file c = None \/ In (DRemove (trace_file c)) ds')).
Proof.
  unfold body, checkout. generalize (cl_SHA (cl_at cls i0)) as sha. intros sha.
  destruct (env_checkout e sha) as [err|]; cbn -[capture_stage inc_stage glesAPIPath trace_file].
  - intros H. inversion H; subst. split; [exists 0%nat; reflexivity|exact id].
  - set (w1 := set_files _ _).
    assert (H1 : w_files w1 !! trace_file c = w_files w !! trace_file c).
    { subst w1. cbn -[glesAPIPath trace_file]. pose proof (trace_file_ne_gles c) as Hne.
      destruct (env_tree e sha);
        [rewrite lookup_insert_ne|rewrite lookup_delete_ne]; try reflexivity;
        intros E; apply Hne; symmetry; exact E. }
    destruct (env_build e sha false) as [d|msg].
    2:{ intros H. inversion H; subst. split; [exists 0%nat; reflexivity|rewrite H1; exact id]. }
    destruct (capture_stage c e sha w1 ds _) as [[w2 ds2] x] eqn:Hcap.
    apply capture_stage_ds in Hcap as [Hds Hinv].
    assert (Hn : exists n, ds2 = repeat (DRemove (trace_file c)) n ++ ds).
    { destruct Hds as [->| ->]; [exists 0%nat|exists 1%nat]; reflexivity. }
    rewrite H1 in Hinv.
    destruct x as [skip|r2].
    + intros H. inversion H; subst. split; [exact Hn|exact Hinv].
    + destruct (inc_stage rd wr um c e sha w2 r2) as [w3 y] eqn:Hinc.
      pose proof (inc_stage_files _ _ _ _ _ _ _ _ _ _ (trace_file c) Hinc) as H3.
      destruct y; intros H; inversion H; subst; (split; [exact Hn|rewrite H3; exact Hinv]).
Qed.

Lemma loop_ds_inv rd wr um c e cls idx w ds res w' ds' rr :
  loop rd wr um c e cls idx w ds res = (w', ds', rr) ->
  (exists n, ds' = repeat (DRemove (trace_file c)) n ++ ds) /\
  ((w_files w !! trace_file c = None \/ In (DRemove (trace_file c)) ds) ->
   (w_files w' !! trace_file c = None \/ In (DRemove (trace_file c)) ds')).
Proof.
  revert w ds res. induction idx as [|i0 idx IH]; intros w ds res H.
  - inversion H; subst. split; [exists 0%nat; reflexivity|exact id].
  - cbn in H. destruct (body rd wr um c e cls i0 w ds) as [[w1 ds1] br] eqn:Hb.
    apply body_ds_inv in Hb as [[n1 Hn1] Hinv1].
    assert (Hstep : forall res1, loop rd wr um c e cls idx w1 ds1 res1 = (w', ds', rr) ->
      (exists n, ds' = repeat (DRemove (trace_file c)) n ++ ds) /\
      ((w_files w !! trace_file c = None \/ In (DRemove (trace_file c)) ds) ->
       (w_files w' !! trace_file c = None \/ In (DRemove (trace_file c)) ds'))).
    { intros res1 Hl. apply IH in Hl as [[n Hn] Hinv]. split.
      - exists (n + n1)%nat. rewrite Hn, Hn1, repeat_app, app_assoc. reflexivity.
      - intros Hi. apply Hinv, Hinv1, Hi. }
    destruct br as [err|[r| | | |]]; try (eapply Hstep; exact H).
    injection H as <- <- _. split; [exists n1; exact Hn1|exact Hinv1].
Qed.

Lemma exec_keeps_none (e : env) (w : world) (d : deferred) (p : string) :
  w_files w !! p = None -> w_files (exec_deferred e w d) !! p = None.
Proof.
  intros H. destruct d as [b|p'|]; cbn.
  - destruct (env_checkout_branch e b); exact H.
  - unfold Remove. destruct (w_files w !! p') eqn:E; cbn; [|exact H].
    destruct (decide (p = p')) as [->|Hne]; [apply lookup_delete_eq|].
    rewrite lookup_delete_ne by congruence. exact H.
  - exact H.
Qed.

Lemma run_deferred_none (e : env) (ds : list deferred) (w : world) (p : string) :
  (w_files w !! p = None \/ In (DRemove p) ds) ->
  w_files (run_deferred e ds w) !! p = None.
Proof.
  unfold run_deferred. revert w. induction ds as [|d ds IH]; intros w H.
  - destruct H as [H|[]]. exact H.
  - cbn [fold_left]. apply IH.
    destruct H as [H|[Hd|H]]; [|subst d|].
    + left. apply exec_keeps_none. exact H.
    + left. cbn. unfold Remove. destruct (w_files w !! p) eqn:E; cbn;
        [apply lookup_delete_eq|exact E].
    + right. exact H.
Qed.

Lemma table_files (c : config) (res : list stats) (w : world) :
  w_files (fold_left (fun w r => tab_print w (LRow (row c r))) res w) = w_files w.
Proof. revert w. induction res as [|r res IH]; intros w; [reflexivity|]. cbn [fold_left]. rewrite IH. reflexivity. Qed.

(** X16: if no file is at the trace output path before [run], none is there after it: every captured trace is removed by the deferred calls. *)
Theorem run_no_trace_left rd wr um c0 e w0 c :
  resolve_root c0 e = Ok c ->
  w_files w0 !! trace_file c = None ->
  w_files (fst (run rd wr um c0 e w0)) !! trace_file c = None.
Proof.
  intros Hroot H0. unfold run. rewrite Hroot.
  destruct (env_git_new e) as [m|]; [exact H0|].
  destruct (env_status e) as [[|]|m]; [|exact H0..].
  destruct (env_branch e) as [b|m]; [|exact H0].
  destruct (env_log e) as [cls|m].
  - destruct (loop rd wr um c e cls (seq 0 (length cls)) w0 [DCheckoutBranch b] [])
      as [[w1 ds1] rr] eqn:Hl.
    apply loop_ds_inv in Hl as [_ Hinv]. specialize (Hinv (or_introl H0)).
    destruct rr as [res|m]; cbn [fst]; apply run_deferred_none.
    + cbn. rewrite table_files. destruct Hinv as [Hinv|Hinv]; [left; exact Hinv|].
      right. right. exact Hinv.
    + exact Hinv.
  - cbn [fst]. apply run_deferred_none. left. exact H0.
Qed.

Lemma capture_stage_sha c e sha w ds r w' ds' r' :
  capture_stage c e sha w ds r = (w', ds', inr r') -> SHA r' = SHA r.
Proof.
  unfold capture_stage. destruct (String.eqb (pkg c) "").
  - intros H. inversion H; subst. reflexivity.
  - destruct (trace c e sha (w_files w)) as [fs [file|err]].
    + destruct (captureStats (env_stats e sha)) as [cnt [err|]];
        intros H; inversion H; subst; reflexivity.
    + intros H. discriminate H.
Qed.

Lemma inc_stage_sha rd wr um c e sha w r w' r' :
  inc_stage rd wr um c e sha w r = (w', inr r') -> SHA r' = SHA r.
Proof.
  unfold inc_stage. destruct (negb (incBuild c)).
  - intros H. inversion H; subst. reflexivity.
  - destruct (withTouchedGLES rd wr um (root c) (env_rand e) (w_rnd w)
                (inc_callback e sha) (w_files w)) as [[[fs k] a] err].
    destruct err as [err|]; [intros H; discriminate H|].
    destruct a as [[d|]|]; intros H; inversion H; subst; reflexivity.
Qed.

Lemma body_sha rd wr um c e cls i0 w ds w' ds' r :
  body rd wr um c e cls i0 w ds = (w', ds', BNext (Appended r)) ->
  SHA r = substring 0 6 (cl_SHA (cl_at cls i0)).
Proof.
  unfold body, checkout. generalize (cl_SHA (cl_at cls i0)) as sha. intros sha.
  destruct (env_checkout e sha) as [err|]; cbn -[capture_stage inc_stage gather_sizes];
    [intros H; discriminate H|].
  destruct (env_build e sha false) as [d|msg]; [|intros H; discriminate H].
  pose proof (fold_sizes_rest e sha (artifacts c) (new_stats (substring 0 6 sha))) as [Hs _].
  rewrite <- gather_sizes_fold in Hs.
  destruct (capture_stage c e sha _ ds _) as [[w2 ds2] [skip|r2]] eqn:Hcap.
  { apply capture_stage_skip in Hcap. intros H. destruct Hcap as [->| ->]; discriminate H. }
  apply capture_stage_sha in Hcap.
  destruct (inc_stage rd wr um c e sha w2 r2) as [w3 [skip|r3]] eqn:Hinc.
  { apply inc_stage_skip in Hinc. subst skip. intros H. discriminate H. }
  apply inc_stage_sha in Hinc.
  intros H. inversion H; subst. rewrite Hinc, Hcap, Hs. reflexivity.
Qed.

Lemma loop_shas rd wr um c e cls idx w ds res w' ds' res' :
  loop rd wr um c e cls idx w ds res = (w', ds', Ok res') ->
  exists extra, res' = res ++ extra /\
    sublist (map SHA extra) (map (fun i => substring 0 6 (cl_SHA (cl_at cls i))) idx).
Proof.
  revert w ds res. induction idx as [|i0 idx IH]; intros w ds res H.
  - inversion H; subst. exists []. rewrite app_nil_r. split; [reflexivity|constructor].
  - cbn in H. destruct (body rd wr um c e cls i0 w ds) as [[w1 ds1] br] eqn:Hb.
    destruct br as [err|[r| | | |]]; [discriminate H| | | | |];
      apply IH in H as [extra [Hres Hsub]].
    + exists (r :: extra). rewrite Hres, <- app_assoc. split; [reflexivity|].
      apply body_sha in Hb. cbn [map]. rewrite Hb. constructor. exact Hsub.
    + exists extra. split; [exact Hres|]. cbn [map]. constructor. exact Hsub.
    + exists extra. split; [exact Hres|]. cbn [map]. constructor. exact Hsub.
    + exists extra. split; [exact Hres|]. cbn [map]. constructor. exact Hsub.
    + exists extra. split; [exact Hres|]. cbn [map]. constructor. exact Hsub.
Qed.

(** X17: the records that the loop of [run] collects follow the log oldest first, skipping some revisions: their SHAs form a subsequence of the log's SHAs, each cut to its first six characters. *)
Theorem loop_records_in_order rd wr um c e cls w ds w' ds' res :
  loop rd wr um c e cls (seq 0 (length cls)) w ds [] = (w', ds', Ok res) ->
  sublist (map SHA res) (map (fun x => substring 0 6 (cl_SHA x)) (rev cls)).
Proof.
  intros H. apply loop_shas in H as [extra [-> Hsub]].
  rewrite <- map_cl_at_seq, map_map. exact Hsub.
Qed.

(** ** Witnesses *)

Lemma withTouchedGLES_restores_witness :
  (forall fs : gmap string file,
     (Sample.touch_out fs).1.1 !! glesAPIPath "/src" = fs !! glesAPIPath "/src") /\
  (withTouchedGLES Sample.readable Sample.writable Sample.umask "/src" (fun k => Z.of_nat k) 0
     Sample.touch_out {[ glesAPIPath "/src" := Sample.gles ]}).1.1.1 !! glesAPIPath "/src" =
  Some Sample.gles.
Proof.
  assert (Hf : forall fs : gmap string file,
     (Sample.touch_out fs).1.1 !! glesAPIPath "/src" = fs !! glesAPIPath "/src").
  { intros fs. apply lookup_insert_ne. vm_compute. discriminate. }
  split; [exact Hf|].
  rewrite (withTouchedGLES_restores Sample.readable Sample.writable Sample.umask
             "/src" (fun k => Z.of_nat k) 0 Sample.touch_out _ Hf).
  apply lookup_insert_eq.
Defined.

Lemma run_checkouts_oldest_first_witness :
  env_log Sample.env_mid = Ok Sample.cls3 /\
  run Sample.readable Sample.writable Sample.umask (Sample.cfg false "") Sample.env_mid Sample.w0 =
    (fst (run Sample.readable Sample.writable Sample.umask (Sample.cfg false "")
            Sample.env_mid Sample.w0), None) /\
  exists b, w_git (fst (run Sample.readable Sample.writable Sample.umask (Sample.cfg false "")
                          Sample.env_mid Sample.w0)) =
            w_git Sample.w0 ++ map (fun x => GCheckout (cl_SHA x)) (rev Sample.cls3) ++
            [GCheckoutBranch b].
Proof.
  split; [reflexivity|]. split; [vm_compute; reflexivity|].
  apply (run_checkouts_oldest_first Sample.readable Sample.writable Sample.umask
           (Sample.cfg false "") Sample.env_mid Sample.w0 _ Sample.cls3);
    [reflexivity|vm_compute; reflexivity].
Defined.

Lemma run_build_failures_dropped_witness :
  (exists w', body Sample.readable Sample.writable Sample.umask (Sample.cfg false "")
                Sample.env_mid Sample.cls3 1 Sample.w0 [] = (w', [], BNext SkipBuild) /\
     forall idx res, loop Sample.readable Sample.writable Sample.umask (Sample.cfg false "")
                       Sample.env_mid Sample.cls3 (1%nat :: idx) Sample.w0 [] res =
                     loop Sample.readable Sample.writable Sample.umask (Sample.cfg false "")
                       Sample.env_mid Sample.cls3 idx w' [] res) /\
  (exists b w1 ds1 res, env_branch Sample.env_mid = Ok b /\
     loop Sample.readable Sample.writable Sample.umask (Sample.cfg false "") Sample.env_mid
       Sample.cls3 (seq 0 3) Sample.w0 [DCheckoutBranch b] [] = (w1, ds1, Ok res) /\
     (length res + length (List.filter (build_fails Sample.env_mid) Sample.cls3) <= 3)%nat /\
     w_stdout (fst (run Sample.readable Sample.writable Sample.umask (Sample.cfg false "")
                      Sample.env_mid Sample.w0)) =
       w_stdout Sample.w0 ++
       [LText "-----------------------"; LHeader (header (Sample.cfg false ""))] ++
       map (fun r => LRow (row (Sample.cfg false "") r)) res).
Proof.
  split.
  - apply (proj1 run_build_failures_dropped Sample.readable Sample.writable Sample.umask
             (Sample.cfg false "") Sample.env_mid Sample.cls3 1%nat Sample.w0 [] "build failed");
      reflexivity.
  - apply (proj2 run_build_failures_dropped Sample.readable Sample.writable Sample.umask
             (Sample.cfg false "") Sample.env_mid Sample.w0 _ (Sample.cfg false "") Sample.cls3);
      [reflexivity|reflexivity|vm_compute; reflexivity].
Defined.

Lemma body_trace_failure_skips_witness :
  exists w', body Sample.readable Sample.writable Sample.umask (Sample.cfg false "mygame")
               Sample.env_trace_fail Sample.cls1 0 Sample.w0 [] = (w', [], BNext SkipTrace) /\
    w_files w' !! trace_file (Sample.cfg false "mygame") = None /\
    forall idx res, loop Sample.readable Sample.writable Sample.umask (Sample.cfg false "mygame")
                      Sample.env_trace_fail Sample.cls1 (0%nat :: idx) Sample.w0 [] res =
                    loop Sample.readable Sample.writable Sample.umask (Sample.cfg false "mygame")
                      Sample.env_trace_fail Sample.cls1 idx w' [] res.
Proof.
  apply (body_trace_failure_skips Sample.readable Sample.writable Sample.umask
           (Sample.cfg false "mygame") Sample.env_trace_fail Sample.cls1 0%nat Sample.w0 [] 100
           "timeout" (Some (mkFile "partial" 420)));
    reflexivity.
Defined.

Lemma captureStats_failure_zero_witness :
  exists w' ds' r, body Sample.readable Sample.writable Sample.umask (Sample.cfg true "mygame")
                     Sample.env_stats_fail Sample.cls1 0 Sample.w0 [] =
                   (w', ds', BNext (Appended r)) /\
    CaptureStats r = (0, 0, 0).
Proof.
  apply (proj2 (proj2 captureStats_failure_zero) Sample.readable Sample.writable Sample.umask
           (Sample.cfg true "mygame") Sample.env_stats_fail Sample.cls1 0%nat Sample.w0 [] 100
           (mkFile "trace" 420) "stats failed");
    [reflexivity|reflexivity|reflexivity|reflexivity|reflexivity|].
  right. exists Sample.gles. split; reflexivity.
Defined.

Lemma inc_failure_policy_witness :
  (exists w' ds' x, body Sample.readable Sample.writable Sample.umask (Sample.cfg true "")
                      Sample.env_no_gles Sample.cls1 0 Sample.w0 [] = (w', ds', BNext x) /\
     (forall r, x <> Appended r) /\
     forall idx res, loop Sample.readable Sample.writable Sample.umask (Sample.cfg true "")
                       Sample.env_no_gles Sample.cls1 (0%nat :: idx) Sample.w0 [] res =
                     loop Sample.readable Sample.writable Sample.umask (Sample.cfg true "")
                       Sample.env_no_gles Sample.cls1 idx w' ds' res) /\
  (exists w' ds' r, body Sample.readable Sample.writable Sample.umask (Sample.cfg true "mygame")
                      Sample.env_inc_fails Sample.cls1 0 Sample.w0 [] = (w', ds', BNext (Appended r)) /\
     IncrementalBuildTime r = 0 /\
     forall idx res, loop Sample.readable Sample.writable Sample.umask (Sample.cfg true "mygame")
                       Sample.env_inc_fails Sample.cls1 (0%nat :: idx) Sample.w0 [] res =
                     loop Sample.readable Sample.writable Sample.umask (Sample.cfg true "mygame")
                       Sample.env_inc_fails Sample.cls1 idx w' ds' (res ++ [r])).
Proof.
  split.
  - apply (proj1 inc_failure_policy Sample.readable Sample.writable Sample.umask
             (Sample.cfg true "") Sample.env_no_gles Sample.cls1 0%nat Sample.w0 [] 100);
      [reflexivity|reflexivity|reflexivity|left; reflexivity].
  - apply (proj2 (proj2 inc_failure_policy) Sample.readable Sample.writable Sample.umask
             (Sample.cfg true "mygame") Sample.env_inc_fails Sample.cls1 0%nat Sample.w0 [] 100
             Sample.gles "build failed");
      [reflexivity|right; eexists; reflexivity|reflexivity..].
Defined.

Lemma FindAllStringSubmatch_shape_witness :
  In ["Frames: 12"; "Frames"; "12"] (Regexp.FindAllStringSubmatch "x Frames: 12 y") /\
  exists w sp d, ["Frames: 12"; "Frames"; "12"] = [(w ++ ":" ++ sp ++ d)%string; w; d] /\
    w <> EmptyString /\ all_chars Regexp.is_letter w = true /\
    sp <> EmptyString /\ all_chars Regexp.is_space sp = true /\
    d <> EmptyString /\ all_chars Regexp.is_digit d = true.
Proof.
  assert (H : In ["Frames: 12"; "Frames"; "12"] (Regexp.FindAllStringSubmatch "x Frames: 12 y")).
  { vm_compute. left. reflexivity. }
  split; [exact H|].
  exact (FindAllStringSubmatch_shape _ _ H).
Defined.

Lemma Atoi_range_witness :
  Strconv.Atoi "-9223372036854775808" = Ok (- 2 ^ 63) /\ - 2 ^ 63 <= - 2 ^ 63 < 2 ^ 63.
Proof.
  assert (H : Strconv.Atoi "-9223372036854775808" = Ok (- 2 ^ 63)) by (vm_compute; reflexivity).
  split; [exact H|]. exact (Atoi_range _ _ H).
Defined.

Lemma Atoi_sign_witness :
  Regexp.is_digit "4"%char = true /\
  (Strconv.Atoi "+42" = Ok 42 <-> Strconv.Atoi "42" = Ok 42) /\
  (Strconv.Atoi "42" = Ok 42 -> Strconv.Atoi "-42" = Ok (- 42)).
Proof.
  assert (H : Regexp.is_digit "4"%char = true) by reflexivity.
  split; [exact H|]. exact (Atoi_sign "4"%char "2" 42 H).
Defined.

Lemma withTouchedGLES_frame_witness :
  (forall fs : gmap string file, (Sample.touch_out fs).1.1 !! "/tmp/notes" = fs !! "/tmp/notes") /\
  (withTouchedGLES Sample.readable Sample.writable Sample.umask "/src" (fun k => Z.of_nat k) 0
     Sample.touch_out {[ "/tmp/notes" := mkFile "n" 420; glesAPIPath "/src" := Sample.gles ]})
     .1.1.1 !! "/tmp/notes" = Some (mkFile "n" 420).
Proof.
  assert (Hf : forall fs : gmap string file,
     (Sample.touch_out fs).1.1 !! "/tmp/notes" = fs !! "/tmp/notes").
  { intros fs. apply lookup_insert_ne. discriminate. }
  split; [exact Hf|].
  rewrite (withTouchedGLES_frame Sample.readable Sample.writable Sample.umask
             "/src" (fun k => Z.of_nat k) 0 Sample.touch_out _ _ Hf).
  vm_compute. reflexivity.
Defined.

Lemma withTouchedGLES_callback_input_witness :
  ({[ glesAPIPath "/src" := Sample.gles ]} : gmap string file) !! glesAPIPath "/src" =
    Some Sample.gles /\
  Sample.readable (f_mode Sample.gles) = true /\
  exists fs', withTouchedGLES Sample.readable Sample.writable Sample.umask "/src"
                (fun k => Z.of_nat k) 4 Sample.touch_out {[ glesAPIPath "/src" := Sample.gles ]} =
              (fs', 5%nat, Some tt, Some "build failed").
Proof.
  assert (H1 : ({[ glesAPIPath "/src" := Sample.gles ]} : gmap string file) !! glesAPIPath "/src" =
                 Some Sample.gles)
    by apply lookup_insert_eq.
  assert (H2 : Sample.readable (f_mode Sample.gles) = true) by reflexivity.
  split; [exact H1|]. split; [exact H2|].
  exact (withTouchedGLES_callback_input Sample.readable Sample.writable Sample.umask "/src"
           (fun k => Z.of_nat k) 4 Sample.touch_out _ _ H1 H2).
Defined.

Lemma withTouchedGLES_fails_witness :
  exists msg, withTouchedGLES Sample.readable Sample.writable Sample.umask "/src"
                (fun k => Z.of_nat k) 4 Sample.touch_out
                {[ glesAPIPath "/src" := mkFile "api" 128 ]} =
              ({[ glesAPIPath "/src" := mkFile "api" 128 ]}, 4%nat, None, Some msg).
Proof.
  apply (withTouchedGLES_fails Sample.readable Sample.writable Sample.umask "/src"
           (fun k => Z.of_nat k) 4 Sample.touch_out).
  right. exists (mkFile "api" 128). split; [apply lookup_insert_eq|reflexivity].
Defined.

Lemma body_watched_file_witness :
  let b := body Sample.readable Sample.writable Sample.umask (Sample.cfg true "mygame")
             Sample.env_mid Sample.cls3 0 Sample.w0 [] in
  b = (b.1.1, b.1.2, BNext (match b.2 with BNext x => x | BFatal _ => SkipBuild end)) /\
  w_files b.1.1 !! glesAPIPath "/src" = Some Sample.gles.
Proof.
  intros b.
  assert (Hb : b = (b.1.1, b.1.2, BNext (match b.2 with BNext x => x | BFatal _ => SkipBuild end)))
    by (vm_compute; reflexivity).
  split; [exact Hb|].
  exact (body_watched_file _ _ _ _ _ _ _ _ _ _ _ _ Hb).
Defined.

Lemma run_no_trace_left_witness :
  resolve_root (Sample.cfg true "mygame") Sample.env_mid = Ok (Sample.cfg true "mygame") /\
  w_files Sample.w0 !! trace_file (Sample.cfg true "mygame") = None /\
  w_files (fst (run Sample.readable Sample.writable Sample.umask (Sample.cfg true "mygame")
                  Sample.env_mid Sample.w0)) !! trace_file (Sample.cfg true "mygame") = None.
Proof.
  assert (H1 : resolve_root (Sample.cfg true "mygame") Sample.env_mid = Ok (Sample.cfg true "mygame"))
    by reflexivity.
  assert (H2 : w_files Sample.w0 !! trace_file (Sample.cfg true "mygame") = None) by reflexivity.
  split; [exact H1|]. split; [exact H2|].
  exact (run_no_trace_left _ _ _ _ _ _ _ H1 H2).
Defined.

Lemma loop_records_in_order_witness :
  let l := loop Sample.readable Sample.writable Sample.umask (Sample.cfg true "mygame")
             Sample.env_mid Sample.cls3 (seq 0 (length Sample.cls3)) Sample.w0 [] [] in
  let res := match l.2 with Ok res => res | Err _ => [] end in
  l = (l.1.1, l.1.2, Ok res) /\
  sublist (map SHA res) (map (fun x => substring 0 6 (cl_SHA x)) (rev Sample.cls3)).
Proof.
  intros l res.
  assert (Hl : l = (l.1.1, l.1.2, Ok res)) by (vm_compute; reflexivity).
  split; [exact Hl|]. exact (loop_records_in_order _ _ _ _ _ _ _ _ _ _ _ Hl).
Defined.
